(** * voltdbclient: the connection facade of the VoltDB Go client

    A shallow embedding of [src/voltdbclient/conn.go]: the [VoltConn]
    struct, its lifecycle ([OpenConn], [newVoltConn], [Close]), statement
    preparation ([Prepare]), the two handle registries ([registerExec],
    [registerQuery], [removeQuery]) and the fan-in [DrainAll].

    Go objects reached through pointers or reference types (the
    [*VoltConn] itself, the two registry maps, every [*VoltQueryResult],
    every [*net.TCPConn], every channel) live in an explicit [Store].  A
    method declared with a value receiver, [func (vc VoltConn) ...], runs on
    a copy of the struct: assignments to its fields stay in the copy, while
    writes that go through a reference held by the copy (a map, a pointer)
    reach the store. *)

From stdpp Require Import base gmap list strings.
From Stdlib Require Import ZArith.

Module voltdbclient.

(** ** Errors *)

(** A Go [error] is represented by its message; [nil] is [None] at the
    places where an [error] is returned. *)
Definition error : Type := string.

Definition errors_New (text : string) : error := text.

(** [fmt.Errorf("Error resolving %v.", connInfo)] *)
Definition fmt_Errorf_resolving (connInfo : string) : error :=
  "Error resolving " +:+ connInfo +:+ ".".

(** ** Data *)

(** [connectionData]: the values returned by a successful login. *)
Record connectionData := {
  hostId : Z;
  connId : Z;
  leaderAddr : Z;
  buildString : string
}.

(** The dynamic value of a non-nil [io.Reader] or [io.Writer]: a
    [*net.TCPConn] (a reference into the store) or a value of some other
    concrete type. *)
Inductive ioStream :=
| TCPConn (c : nat)
| OtherStream (tag : nat).

(** Modelled from the spec: [NetworkListener], [NewListener] and [start]
    are not part of conn.go.  The spec says that after open exactly one
    listener is started, bound to the session's read side; a listener is the
    reader it is bound to and whether it has been started. *)
Record NetworkListener := {
  nl_reader : option ioStream;
  nl_started : bool
}.

Definition NewListener (reader : option ioStream) : NetworkListener :=
  {| nl_reader := reader; nl_started := false |}.

Definition start (nl : NetworkListener) : NetworkListener :=
  {| nl_reader := nl_reader nl; nl_started := true |}.

(** [VoltConn].  Interface and pointer fields are [option]s ([None] is
    [nil]); the two maps are references to map objects of the store. *)
Record VoltConn := {
  reader : option ioStream;
  writer : option ioStream;
  connData : option connectionData;
  execs : nat;
  queries : nat;
  netListener : option NetworkListener;
  isOpen : bool
}.

(** [driver.Rows] values are opaque to this file. *)
Definition Rows : Type := nat.

(** What [reflect.Select] hands back for a received value: [val.Kind()] is
    either not [reflect.Interface], or it is and [val.Interface()] is nil,
    a [driver.Rows], or a value of another type. *)
Inductive dynValue :=
| DynRows (r : Rows)
| DynOther (tag : nat).

Inductive reflectValue :=
| NotInterface (kind : nat)
| Interface (v : option dynValue).

(** Modelled from the spec: [VoltQueryResult] is not part of conn.go.  The
    spec gives a pending query a delivery slot and the mutable state
    {result: rows-or-nil, error: error-or-nil}; [channel()] returns the
    slot, [setError] and [setRows] assign the two fields. *)
Record VoltQueryResult := {
  vqr_channel : nat;
  vqr_rows : option Rows;
  vqr_err : option error
}.

(** The calls [DrainAll] makes on a chosen query. *)
Inductive queryCall :=
| setError (e : error)
| setRows (rows : option Rows).

Definition run_call (q : VoltQueryResult) (c : queryCall) : VoltQueryResult :=
  match c with
  | setError e =>
      {| vqr_channel := vqr_channel q; vqr_rows := vqr_rows q; vqr_err := Some e |}
  | setRows rows =>
      {| vqr_channel := vqr_channel q; vqr_rows := rows; vqr_err := vqr_err q |}
  end.

(** A channel: the values sent and not yet received, and whether the
    sender closed it. *)
Record chanState := {
  ch_buf : list reflectValue;
  ch_closed : bool
}.

(** A [net.TCPConn] object: whether its descriptor has been closed, and how
    many times [Close] has been called on it. *)
Record tcpState := {
  tcp_closed : bool;
  tcp_close_calls : nat
}.

(** ** The store *)

Record Store := {
  conns : gmap nat VoltConn;
  tcpConns : gmap nat tcpState;
  execMaps : gmap nat (gmap Z nat);
  queryMaps : gmap nat (gmap Z nat);
  results : gmap nat VoltQueryResult;
  channels : gmap nat chanState
}.

Definition empty_store : Store :=
  {| conns := ∅; tcpConns := ∅; execMaps := ∅; queryMaps := ∅;
     results := ∅; channels := ∅ |}.

Definition set_conns (f : gmap nat VoltConn → gmap nat VoltConn) (σ : Store) : Store :=
  {| conns := f (conns σ); tcpConns := tcpConns σ; execMaps := execMaps σ;
     queryMaps := queryMaps σ; results := results σ; channels := channels σ |}.

Definition set_tcpConns (f : gmap nat tcpState → gmap nat tcpState) (σ : Store) : Store :=
  {| conns := conns σ; tcpConns := f (tcpConns σ); execMaps := execMaps σ;
     queryMaps := queryMaps σ; results := results σ; channels := channels σ |}.

Definition set_execMaps (f : gmap nat (gmap Z nat) → gmap nat (gmap Z nat)) (σ : Store) : Store :=
  {| conns := conns σ; tcpConns := tcpConns σ; execMaps := f (execMaps σ);
     queryMaps := queryMaps σ; results := results σ; channels := channels σ |}.

Definition set_queryMaps (f : gmap nat (gmap Z nat) → gmap nat (gmap Z nat)) (σ : Store) : Store :=
  {| conns := conns σ; tcpConns := tcpConns σ; execMaps := execMaps σ;
     queryMaps := f (queryMaps σ); results := results σ; channels := channels σ |}.

Definition set_results (f : gmap nat VoltQueryResult → gmap nat VoltQueryResult) (σ : Store) : Store :=
  {| conns := conns σ; tcpConns := tcpConns σ; execMaps := execMaps σ;
     queryMaps := queryMaps σ; results := f (results σ); channels := channels σ |}.

Definition set_channels (f : gmap nat chanState → gmap nat chanState) (σ : Store) : Store :=
  {| conns := conns σ; tcpConns := tcpConns σ; execMaps := execMaps σ;
     queryMaps := queryMaps σ; results := results σ; channels := f (channels σ) |}.

(** ** Outcomes *)

(** A call returns a value and a store, panics, or blocks forever.
    [OutOfFuel] is the answer of a loop that was given fewer iterations
    than it needs; [DrainAll] gives its loop enough of them
    ([DrainAll_fuel] below). *)
Inductive outcome (A : Type) : Type :=
| Returned (a : A) (σ : Store)
| Panicked (reason : string)
| Blocked
| OutOfFuel.
Arguments Returned {A} a σ.
Arguments Panicked {A} reason.
Arguments Blocked {A}.
Arguments OutOfFuel {A}.

Definition bind {A B} (m : outcome A) (k : A → Store → outcome B) : outcome B :=
  match m with
  | Returned a σ => k a σ
  | Panicked r => Panicked r
  | Blocked => Blocked
  | OutOfFuel => OutOfFuel
  end.

Definition nil_dereference : string :=
  "invalid memory address or nil pointer dereference".

(** The panic of a failed single-value type assertion [x.(T)]. *)
Definition failed_assertion : string :=
  "interface conversion: io.Reader is not *net.TCPConn".

(** A method called through a [*VoltConn]: a value receiver gets a copy of
    the struct the pointer refers to. *)
Definition through_pointer {A} (p : nat) (method : VoltConn → Store → outcome A)
    (σ : Store) : outcome A :=
  match conns σ !! p with
  | Some vc => method vc σ
  | None => Panicked nil_dereference
  end.

(** ** Lifecycle *)

(** [newVoltConn]: the struct is allocated with [new] and filled in through
    the pointer; the [connData] argument is not stored. *)
Definition newVoltConn (reader writer : option ioStream) (cd : option connectionData)
    (σ : Store) : outcome nat :=
  let vc := fresh (dom (conns σ)) in
  let e := fresh (dom (execMaps σ)) in
  let q := fresh (dom (queryMaps σ)) in
  let σ1 := set_execMaps (insert e ∅) σ in
  let σ2 := set_queryMaps (insert q ∅) σ1 in
  let nl := start (NewListener reader) in
  Returned vc
    (set_conns (insert vc {| reader := reader; writer := writer; connData := None;
                             execs := e; queries := q;
                             netListener := Some nl; isOpen := true |}) σ2).

(** [Begin] *)
Definition Begin (vc : VoltConn) (σ : Store) : outcome (option unit * option error) :=
  Returned (None, Some (errors_New "VoltDB does not support transactions, VoltDB autocommits")) σ.

(** [Close] on a [*net.TCPConn], from Go's net package: the first call closes the
    descriptor and returns nil, a later one returns an error. *)
Definition TCPConn_Close (c : nat) (σ : Store) : outcome (option error) :=
  match tcpConns σ !! c with
  | None => Panicked nil_dereference
  | Some st =>
      Returned (if tcp_closed st then Some (errors_New "use of closed network connection") else None)
        (set_tcpConns (insert c {| tcp_closed := true;
                                   tcp_close_calls := S (tcp_close_calls st) |}) σ)
  end.

(** The body of [Close], run on the receiver copy [vc]: the result is the
    copy as the body leaves it, together with [err]. *)
Definition Close_body (vc : VoltConn) (σ : Store) : outcome (VoltConn * option error) :=
  bind (match reader vc with
        | Some r =>
            match r with
            | TCPConn c => TCPConn_Close c σ
            | OtherStream _ => Panicked failed_assertion
            end
        | None => Returned None σ
        end)
    (λ err σ',
      Returned ({| reader := None; writer := None; connData := None;
                   execs := execs vc; queries := queries vc;
                   netListener := netListener vc; isOpen := false |}, err) σ').

(** [Close] has a value receiver: the copy is dropped when it returns. *)
Definition Close (vc : VoltConn) (σ : Store) : outcome (option error) :=
  bind (Close_body vc σ) (λ r σ', Returned r.2 σ').

(** Modelled from the spec: [VoltStatement] and [newVoltStatement] are not
    part of conn.go.  The statement builder is given the connection, the
    writer endpoint, the listener and the statement text. *)
Record VoltStatement := {
  stmt_conn : VoltConn;
  stmt_writer : option ioStream;
  stmt_listener : option NetworkListener;
  stmt_query : string
}.

Definition newVoltStatement (vc : VoltConn) (w : option ioStream)
    (nl : option NetworkListener) (query : string) : VoltStatement :=
  {| stmt_conn := vc; stmt_writer := w; stmt_listener := nl; stmt_query := query |}.

(** [Prepare] *)
Definition Prepare (vc : VoltConn) (query : string) (σ : Store)
    : outcome (option VoltStatement * option error) :=
  if negb (isOpen vc) then
    Returned (None, Some (errors_New "Connection is closed")) σ
  else
    let vs := newVoltStatement vc (writer vc) (netListener vc) query in
    Returned (Some vs, None) σ.

(** The collaborators of [OpenConn]: address resolution and dialling of
    Go's net package, and the login codec of this package.  Each either
    fails with an error or yields its value; [writeLoginMessage] yields the
    error of the write, if any. *)
Record Collaborators := {
  net_ResolveTCPAddr : string → error + nat;
  net_DialTCP : nat → option error;
  serializeLoginMessage : string → string → error + string;
  writeLoginMessage : nat → string → option error;
  readLoginResponse : nat → error + connectionData
}.

(** [OpenConn] *)
Definition OpenConn (env : Collaborators) (connInfo : string) (σ : Store)
    : outcome (option nat * option error) :=
  match net_ResolveTCPAddr env connInfo with
  | inl _ => Returned (None, Some (fmt_Errorf_resolving connInfo)) σ
  | inr raddr =>
      match net_DialTCP env raddr with
      | Some err => Returned (None, Some err) σ
      | None =>
          let tcpConn := fresh (dom (tcpConns σ)) in
          let σ1 := set_tcpConns (insert tcpConn {| tcp_closed := false;
                                                    tcp_close_calls := 0 |}) σ in
          match serializeLoginMessage env "" "" with
          | inl err => Returned (None, Some err) σ1
          | inr login =>
              let _ := writeLoginMessage env tcpConn login in
              match readLoginResponse env tcpConn with
              | inl err => Returned (None, Some err) σ1
              | inr cd =>
                  bind (newVoltConn (Some (TCPConn tcpConn)) (Some (TCPConn tcpConn))
                          (Some cd) σ1)
                    (λ vc σ2, Returned (Some vc, None) σ2)
              end
          end
      end
  end.

(** ** The registries *)

(** [registerExec]: an assignment into a nil map panics. *)
Definition registerExec (vc : VoltConn) (handle : Z) (c : nat) (σ : Store) : outcome unit :=
  match execMaps σ !! execs vc with
  | Some m => Returned () (set_execMaps (insert (execs vc) (<[handle := c]> m)) σ)
  | None => Panicked "assignment to entry in nil map"
  end.

(** [registerQuery] *)
Definition registerQuery (vc : VoltConn) (handle : Z) (vcr : nat) (σ : Store) : outcome unit :=
  match queryMaps σ !! queries vc with
  | Some m => Returned () (set_queryMaps (insert (queries vc) (<[handle := vcr]> m)) σ)
  | None => Panicked "assignment to entry in nil map"
  end.

(** [removeQuery]: [delete] on a nil map does nothing. *)
Definition removeQuery (vc : VoltConn) (han : Z) (σ : Store) : outcome unit :=
  match queryMaps σ !! queries vc with
  | Some m => Returned () (set_queryMaps (insert (queries vc) (delete han m)) σ)
  | None => Returned () σ
  end.

(** ** Bulk drain *)

(** A receive on channel [c], when it can proceed: the oldest buffered
    value with [ok = true], or, on a closed and empty channel, the zero
    value of the element type with [ok = false].  A channel that is empty
    and open, and a nil channel, cannot proceed. *)
Definition chan_recv (c : nat) (σ : Store) : option (reflectValue * bool * Store) :=
  match channels σ !! c with
  | None => None
  | Some st =>
      match ch_buf st with
      | v :: rest =>
          Some (v, true,
                set_channels (insert c {| ch_buf := rest; ch_closed := ch_closed st |}) σ)
      | [] => if ch_closed st then Some (Interface None, false, σ) else None
      end
  end.

(** The indices, counted from [i], of the cases that can proceed. *)
Fixpoint ready_cases (σ : Store) (i : nat) (cases : list nat) : list nat :=
  match cases with
  | [] => []
  | c :: cs =>
      (if chan_recv c σ is Some _ then [i] else []) ++ ready_cases σ (S i) cs
  end.

(** The most cases [reflect.Select] takes. *)
Definition max_select_cases : Z := 65536.

(** [reflect.Select] over receive cases: panics when given more than
    65536 cases; otherwise blocks while no case can proceed, and performs
    one of the receives that can; [pick] is the choice the runtime makes
    among them. *)
Definition reflect_Select (cases : list nat) (pick : nat) (σ : Store)
    : outcome (nat * reflectValue * bool) :=
  if (max_select_cases <? Z.of_nat (length cases))%Z then
    Panicked "reflect.Select: too many cases (max 65536)"
  else
    let ready := ready_cases σ 0 cases in
    match ready !! (pick `mod` length ready) with
    | None => Blocked
    | Some chosen =>
        match cases !! chosen ≫= (λ c, chan_recv c σ) with
        | Some (val, ok, σ') => Returned (chosen, val, ok) σ'
        | None => Blocked
        end
    end.

(** What the drain does to the outside, in order. *)
Inductive event :=
| Selected (chosen : nat)
| Called (query : nat) (call : queryCall).

(** A method call on a [*VoltQueryResult]. *)
Definition call_query (p : nat) (call : queryCall) (σ : Store) : outcome unit :=
  match results σ !! p with
  | Some q => Returned () (set_results (insert p (run_call q call)) σ)
  | None => Panicked nil_dereference
  end.

Fixpoint call_queries (p : nat) (calls : list queryCall) (σ : Store) : outcome unit :=
  match calls with
  | [] => Returned () σ
  | call :: rest => bind (call_query p call σ) (λ _ σ', call_queries p rest σ')
  end.

(** The calls of lines 132 to 145 on [chosenQuery], given [val] and [ok]
    of the selection. *)
Definition finalize_calls (val : reflectValue) (ok : bool) : list queryCall :=
  if negb ok then
    [setError (errors_New "Result was not available, channel was closed")]
  else
    match val with
    | NotInterface _ =>
        [setError (errors_New "unexpected return type, not an interface")]
    | Interface v =>
        let '(rows, ok) := match v with
                           | Some (DynRows r) => (Some r, true)
                           | _ => (None, false)
                           end in
        (if negb ok then
           [setError (errors_New "unexpected return type, not driver.Rows")]
         else [])
        ++ [setRows rows]
    end.

(** [vc.queries[handle]]: nil for a missing key or a nil map. *)
Definition queries_at (vc : VoltConn) (handle : Z) (σ : Store) : option nat :=
  queryMaps σ !! queries vc ≫= (λ m, m !! handle).

(** The nondeterminism of one [DrainAll] call: the choices behind the
    order in which [range] yields the entries of a map, and the choice
    [reflect.Select] makes at its n-th call. *)
Record Scheduler := {
  range_pick : nat → nat;
  select_pick : nat → nat
}.

(** An order of [l]: the next element is the one at [pick 0], taken modulo
    the number of elements that are left. *)
Fixpoint shuffle {A} (fuel : nat) (pick : nat → nat) (l : list A) : list A :=
  match fuel with
  | 0 => []
  | S fuel' =>
      let i := pick 0 `mod` length l in
      match l !! i with
      | Some x => x :: shuffle fuel' (λ n, pick (S n)) (delete i l)
      | None => []
      end
  end.

(** [range] over a map: its entries, in an order of the runtime's choice. *)
Definition range_order (sch : Scheduler) (m : gmap Z nat) : list (Z * nat) :=
  shuffle (size m) (range_pick sch) (map_to_list m).

(** The first loop: [handles] and [cases] have one slot per entry of the
    map, filled in the order [range] yields the entries; [vqr.channel()]
    needs a query behind [vqr]. *)
Fixpoint snapshot (entries : list (Z * nat)) (σ : Store) : outcome (list Z * list nat) :=
  match entries with
  | [] => Returned ([], []) σ
  | (handle, vqr) :: rest =>
      match results σ !! vqr with
      | None => Panicked nil_dereference
      | Some q =>
          bind (snapshot rest σ)
            (λ hc σ', Returned (handle :: hc.1, vqr_channel q :: hc.2) σ')
      end
  end.

(** The second loop, [for len(handles) > 0]. *)
Fixpoint drain_loop (fuel : nat) (vc : VoltConn) (pick : nat → nat)
    (handles : list Z) (cases : list nat) (finishedQueries : list nat)
    (log : list event) (σ : Store) : outcome (list nat * list event) :=
  match handles with
  | [] => Returned (finishedQueries, log) σ
  | _ :: _ =>
      match fuel with
      | 0 => OutOfFuel
      | S fuel' =>
          bind (reflect_Select cases (pick 0) σ) (λ sel σ1,
            let '(chosen, val, ok) := sel in
            match handles !! chosen, last handles, last cases with
            | Some handle, Some lastHandle, Some lastCase =>
                let handles' := take (length handles - 1) (<[chosen := lastHandle]> handles) in
                let cases' := take (length cases - 1) (<[chosen := lastCase]> cases) in
                match queries_at vc handle σ1 with
                | None => Panicked nil_dereference
                | Some chosenQuery =>
                    let calls := finalize_calls val ok in
                    bind (call_queries chosenQuery calls σ1) (λ _ σ2,
                      drain_loop fuel' vc (λ n, pick (S n)) handles' cases'
                        (finishedQueries ++ [chosenQuery])
                        (log ++ Selected chosen :: (Called chosenQuery <$> calls)) σ2)
                end
            | _, _, _ => Panicked "index out of range"
            end)
      end
  end.

(** [DrainAll].  The result is [finishedQueries] together with the log of
    the selections and setter calls made on the way. *)
Definition DrainAll (sch : Scheduler) (vc : VoltConn) (σ : Store)
    : outcome (list nat * list event) :=
  let m := default ∅ (queryMaps σ !! queries vc) in
  let numQueries := size m in
  bind (snapshot (range_order sch m) σ) (λ hc σ',
    drain_loop numQueries vc (select_pick sch) hc.1 hc.2 [] [] σ').

(** ** Scenarios *)

(** The scheduler that ranges over a map in the order of [map_to_list] and
    always takes the [k]-th ready case (modulo their number). *)
Definition in_order (k : nat) : Scheduler :=
  {| range_pick := λ _, 0; select_pick := λ _, k |}.

Definition mk_query (c : nat) : VoltQueryResult :=
  {| vqr_channel := c; vqr_rows := None; vqr_err := None |}.

Definition delivered (v : reflectValue) : chanState :=
  {| ch_buf := [v]; ch_closed := false |}.

Definition abandoned : chanState := {| ch_buf := []; ch_closed := true |}.

Definition pending : chanState := {| ch_buf := []; ch_closed := false |}.

(** A connection whose query registry is map object 0. *)
Definition conn0 : VoltConn :=
  {| reader := Some (TCPConn 0); writer := Some (TCPConn 0); connData := None;
     execs := 0; queries := 0;
     netListener := Some (start (NewListener (Some (TCPConn 0)))); isOpen := true |}.

(** Handles 100, 101 and 102 registered as queries 0, 1 and 2 on channels
    10, 11 and 12, whose states are [c0], [c1] and [c2]. *)
Definition three_queries (c0 c1 c2 : chanState) : Store :=
  {| conns := {[ 0 := conn0 ]};
     tcpConns := {[ 0 := {| tcp_closed := false; tcp_close_calls := 0 |} ]};
     execMaps := {[ 0 := ∅ ]};
     queryMaps := {[ 0 := {[ 100%Z := 0; 101%Z := 1; 102%Z := 2 ]} ]};
     results := {[ 0 := mk_query 10; 1 := mk_query 11; 2 := mk_query 12 ]};
     channels := {[ 10 := c0; 11 := c1; 12 := c2 ]} |}.

(** The registry of [three_queries]. *)
Definition three_handles : gmap Z nat :=
  {[ 100%Z := 0; 101%Z := 1; 102%Z := 2 ]}.

(** A store with one open TCP connection, object 0, and nothing else. *)
Definition one_socket : Store :=
  set_tcpConns (insert 0 {| tcp_closed := false; tcp_close_calls := 0 |}) empty_store.

Definition login_reply : connectionData :=
  {| hostId := 0; connId := 7; leaderAddr := 0; buildString := "volt" |}.

(** A server that resolves and accepts; writing the login frame ends with
    [write_error] and reading the response with [reply]. *)
Definition server (write_error : option error) (reply : error + connectionData)
    : Collaborators :=
  {| net_ResolveTCPAddr := λ _, inr 0;
     net_DialTCP := λ _, None;
     serializeLoginMessage := λ _ _, inr "login";
     writeLoginMessage := λ _ _, write_error;
     readLoginResponse := λ _, reply |}.

(** A connection whose reader is not a [*net.TCPConn]. *)
Definition piped : VoltConn :=
  {| reader := Some (OtherStream 0); writer := Some (OtherStream 0); connData := None;
     execs := 0; queries := 0;
     netListener := Some (start (NewListener (Some (OtherStream 0)))); isOpen := true |}.

(** ** Notions used in the statements *)

(** [len(vc.queries)]; a nil map has length 0. *)
Definition len_queries (vc : VoltConn) (σ : Store) : nat :=
  size (default ∅ (queryMaps σ !! queries vc)).

(** The setter calls a log records for the query behind [p]. *)
Fixpoint calls_on (p : nat) (log : list event) : list queryCall :=
  match log with
  | [] => []
  | Called p' c :: rest =>
      if decide (p' = p) then c :: calls_on p rest else calls_on p rest
  | Selected _ :: rest => calls_on p rest
  end.

(** The store [newVoltConn] leaves when it is run in [one_socket] on TCP
    connection 0: the new connection is object 0, with value [conn0]. *)
Definition opened : Store :=
  {| conns := {[ 0 := conn0 ]};
     tcpConns := {[ 0 := {| tcp_closed := false; tcp_close_calls := 0 |} ]};
     execMaps := {[ 0 := ∅ ]};
     queryMaps := {[ 0 := ∅ ]};
     results := ∅;
     channels := ∅ |}.

(** The TCP connection object a successful dial makes in [σ]. *)
Definition dialled (σ : Store) : nat := fresh (dom (tcpConns σ)).

(** An open attempt in [σ] one of whose checked steps fails: resolving the
    address, dialling it, serializing the login message, or reading the
    login response from the dialled connection. *)
Definition open_failure (env : Collaborators) (connInfo : string) (σ : Store) : Prop :=
  (∃ e, net_ResolveTCPAddr env connInfo = inl e) ∨
  (∃ raddr e, net_ResolveTCPAddr env connInfo = inr raddr ∧
              net_DialTCP env raddr = Some e) ∨
  (∃ e, serializeLoginMessage env "" "" = inl e) ∨
  (∃ e, readLoginResponse env (dialled σ) = inl e).


(** The two type-mismatch errors of [DrainAll]. *)
Definition type_mismatch (e : error) : Prop :=
  e = errors_New "unexpected return type, not an interface" ∨
  e = errors_New "unexpected return type, not driver.Rows".

(** [v] is a [driver.Rows] behind an interface. *)
Definition is_rows (v : reflectValue) : Prop :=
  ∃ r, v = Interface (Some (DynRows r)).

(** What a receive on [c] yields in [σ], when it can proceed. *)
Definition peek (c : nat) (σ : Store) : option (reflectValue * bool) :=
  fst <$> chan_recv c σ.

(** The channel of the query behind [p]. *)
Definition channel_of (σ : Store) (p : nat) : option nat :=
  vqr_channel <$> results σ !! p.

(** The query as [DrainAll] leaves it after the selection [r = (val, ok)]. *)
Definition finalized (q : VoltQueryResult) (r : reflectValue * bool) : VoltQueryResult :=
  foldl run_call q (finalize_calls r.1 r.2).

(** The parts of the store [DrainAll] has no business with. *)
Definition frame (σ σ' : Store) : Prop :=
  conns σ' = conns σ ∧ tcpConns σ' = tcpConns σ ∧
  execMaps σ' = execMaps σ ∧ queryMaps σ' = queryMaps σ.

(** [m] is the query registry of [vc]. *)
Definition registry (vc : VoltConn) (σ : Store) (m : gmap Z nat) : Prop :=
  queryMaps σ !! queries vc = Some m.

(** Every registered query is live and its completion arrives: its channel
    holds a value or has been closed. *)
Definition completes (σ : Store) (m : gmap Z nat) : Prop :=
  map_Forall (λ _ p, is_Some (channel_of σ p ≫= (λ c, peek c σ))) m.

(** Every registered handle has a delivery channel of its own. *)
Definition own_channels (σ : Store) (m : gmap Z nat) : Prop :=
  NoDup ((λ hp, channel_of σ hp.2) <$> map_to_list m).

#[global] Instance completes_dec σ m : Decision (completes σ m).
Proof. unfold completes. apply _. Defined.

#[global] Instance own_channels_dec σ m : Decision (own_channels σ m).
Proof. unfold own_channels. apply _. Defined.

(** A loop entry (handle, query, channel) that is consistent with the
    registry [m] and whose channel can be received from. *)
Definition entry_ok (m : gmap Z nat) (σ : Store) (t : Z * nat * nat) : Prop :=
  m !! t.1.1 = Some t.1.2 ∧ channel_of σ t.1.2 = Some t.2 ∧ is_Some (peek t.2 σ).

(** The entry of a pair yielded by [range]. *)
Definition entry_of (σ : Store) (hp : Z * nat) : Z * nat * nat :=
  (hp, default 0 (channel_of σ hp.2)).

(** The number of [reflect.Select] calls a log records. *)
Fixpoint selections (log : list event) : nat :=
  match log with
  | [] => 0
  | Selected _ :: rest => S (selections rest)
  | Called _ _ :: rest => selections rest
  end.

(** A channel that is open and holds nothing: its completion has not
    arrived. *)
Definition awaits (σ : Store) (c : nat) : Prop :=
  ∃ st, channels σ !! c = Some st ∧ ch_buf st = [] ∧ ch_closed st = false.

(** Like [three_queries], with query 2 live on channel 12 and not
    registered. *)
Definition two_registered (c0 c1 c2 : chanState) : Store :=
  {| conns := {[ 0 := conn0 ]};
     tcpConns := {[ 0 := {| tcp_closed := false; tcp_close_calls := 0 |} ]};
     execMaps := {[ 0 := ∅ ]};
     queryMaps := {[ 0 := {[ 100%Z := 0; 101%Z := 1 ]} ]};
     results := {[ 0 := mk_query 10; 1 := mk_query 11; 2 := mk_query 12 ]};
     channels := {[ 10 := c0; 11 := c1; 12 := c2 ]} |}.

Definition two_handles : gmap Z nat := {[ 100%Z := 0; 101%Z := 1 ]}.

(** [conn0] as the body of [Close] leaves its copy: same maps, no reader,
    no writer, not open. *)
Definition closed0 : VoltConn :=
  {| reader := None; writer := None; connData := None;
     execs := 0; queries := 0;
     netListener := Some (start (NewListener (Some (TCPConn 0)))); isOpen := false |}.

(** The channels of the registered queries ([None] for a handle registered
    to a nil query). *)
Definition query_channels (vc : VoltConn) (σ : Store) : list (option nat) :=
  (λ hp : Z * nat, channel_of σ hp.2)
    <$> map_to_list (default ∅ (queryMaps σ !! queries vc)).

(** Whether a call has returned. *)
Definition has_returned {A} (o : outcome A) : bool :=
  match o with
  | Returned _ _ => true
  | _ => false
  end.

(** ** Lists: removal by swapping with the last element *)

Lemma swap_remove_perm {A} (l : list A) (i : nat) (h : A) :
  l !! i = Some h →
  ∃ x, last l = Some x ∧ h :: take (length l - 1) (<[i:=x]> l) ≡ₚ l.
Proof.
  intros Hi.
  destruct (last l) as [x|] eqn:Hl.
  2:{ apply last_None in Hl. subst. done. }
  exists x. split; [done|].
  apply last_Some in Hl as [l' ->].
  rewrite length_app. simpl. replace (length l' + 1 - 1) with (length l') by lia.
  destruct (decide (i < length l')) as [Hlt|Hge].
  - rewrite insert_app_l by done.
    rewrite take_app_length' by (by rewrite length_insert).
    rewrite lookup_app_l in Hi by done.
    rewrite insert_take_drop by done.
    rewrite <-(take_drop_middle l' i h) at 3 by done.
    rewrite <-!app_assoc. simpl.
    rewrite <-Permutation_middle.
    rewrite (Permutation_app_comm (drop (S i) l') [x]). simpl.
    rewrite <-Permutation_middle. simpl.
    rewrite <-Permutation_middle. done.
  - apply lookup_lt_Some in Hi as Hlen. rewrite length_app in Hlen. simpl in Hlen.
    assert (i = length l') as -> by lia.
    rewrite list_lookup_middle in Hi by done. simplify_eq.
    rewrite list_insert_id by (by rewrite list_lookup_middle).
    rewrite take_app_length. by rewrite <-Permutation_cons_append.
Qed.

(** ** Channels and selection *)

Lemma chan_recv_inv c σ v ok σ1 :
  chan_recv c σ = Some (v, ok, σ1) →
  frame σ σ1 ∧ results σ1 = results σ ∧
  ∀ c', c' ≠ c → channels σ1 !! c' = channels σ !! c'.
Proof.
  unfold chan_recv, frame. intros H.
  destruct (channels σ !! c) as [st|]; [|done].
  destruct (ch_buf st) as [|v0 rest].
  - destruct (ch_closed st); simplify_eq. done.
  - simplify_eq. simpl. split_and!; try done.
    intros c' Hc'. by rewrite lookup_insert_ne.
Qed.

Lemma peek_ext c σ1 σ2 :
  channels σ1 !! c = channels σ2 !! c → peek c σ1 = peek c σ2.
Proof.
  unfold peek, chan_recv. intros ->.
  destruct (channels σ2 !! c) as [st|]; [|done].
  destruct (ch_buf st); [|done]. by destruct (ch_closed st).
Qed.

Lemma peek_recv c σ r :
  peek c σ = Some r → ∃ σ1, chan_recv c σ = Some (r.1, r.2, σ1).
Proof.
  unfold peek. destruct (chan_recv c σ) as [[[v ok] σ1]|]; [|done].
  intros [= <-]. by exists σ1.
Qed.

Lemma ready_cases_elem σ cases : ∀ k i,
  i ∈ ready_cases σ k cases →
  k ≤ i ∧ ∃ c, cases !! (i - k) = Some c ∧ is_Some (chan_recv c σ).
Proof.
  induction cases as [|c cs IH]; intros k i; simpl.
  - by intros ?%elem_of_nil.
  - rewrite elem_of_app. intros [Hi|Hi].
    + destruct (chan_recv c σ) as [r|] eqn:Hr.
      * apply list_elem_of_singleton in Hi as ->. split; [lia|].
        exists c. replace (k - k) with 0 by lia. eauto.
      * by apply elem_of_nil in Hi.
    + apply IH in Hi as [Hle (c' & Hc' & Hr)]. split; [lia|].
      exists c'. split; [|done].
      replace (i - k) with (S (i - S k)) by lia. done.
Qed.

Lemma reflect_Select_ready cases pick σ :
  cases ≠ [] →
  (Z.of_nat (length cases) ≤ max_select_cases)%Z →
  Forall (λ c, is_Some (chan_recv c σ)) cases →
  ∃ chosen c v ok σ1,
    reflect_Select cases pick σ = Returned (chosen, v, ok) σ1 ∧
    cases !! chosen = Some c ∧ chan_recv c σ = Some (v, ok, σ1).
Proof.
  intros Hne Hmax Hall. unfold reflect_Select.
  rewrite (proj2 (Z.ltb_ge _ _) Hmax).
  assert (ready_cases σ 0 cases ≠ []) as Hready.
  { destruct cases as [|c cs]; [done|]. simpl.
    apply Forall_cons in Hall as [[r Hr] _]. by rewrite Hr. }
  destruct (ready_cases σ 0 cases !! (pick `mod` length (ready_cases σ 0 cases)))
    as [chosen|] eqn:Hpick.
  2:{ apply lookup_ge_None in Hpick.
      pose proof (Nat.mod_upper_bound pick (length (ready_cases σ 0 cases))) as Hlt.
      destruct (ready_cases σ 0 cases); [done|]. simpl in *. lia. }
  apply list_elem_of_lookup_2, ready_cases_elem in Hpick as [_ (c & Hc & [r Hr])].
  rewrite Nat.sub_0_r in Hc. rewrite Hc. simpl. rewrite Hr.
  destruct r as [[v ok] σ1]. by exists chosen, c, v, ok, σ1.
Qed.

(** ** Setter calls *)

Lemma call_queries_spec p calls : ∀ q σ,
  results σ !! p = Some q →
  ∃ σ', call_queries p calls σ = Returned () σ' ∧
        frame σ σ' ∧ channels σ' = channels σ ∧
        results σ' = <[p := foldl run_call q calls]> (results σ).
Proof.
  induction calls as [|call rest IH]; intros q σ Hq; simpl.
  - exists σ. split_and!; try done. by rewrite insert_id.
  - unfold call_query. rewrite Hq. simpl.
    edestruct (IH (run_call q call) (set_results (insert p (run_call q call)) σ))
      as (σ' & Hrun & Hfr & Hch & Hres).
    { simpl. by rewrite lookup_insert_eq. }
    exists σ'. split_and!; try done.
    rewrite Hres. simpl. by rewrite insert_insert_eq.
Qed.

(** ** The drain loop *)

Lemma entry_ok_frame m σ σ' t :
  entry_ok m σ t →
  results σ' !! t.1.2 = results σ !! t.1.2 →
  channels σ' !! t.2 = channels σ !! t.2 →
  entry_ok m σ' t.
Proof.
  intros (Hm & Hc & Hp) Hres Hch. split_and!; [done| |].
  - unfold channel_of in *. by rewrite Hres.
  - by rewrite (peek_ext _ σ' σ).
Qed.

Lemma drain_loop_spec vc m fuel : ∀ pick ts finished log σ,
  registry vc σ m →
  length ts ≤ fuel →
  (Z.of_nat (length ts) ≤ max_select_cases)%Z →
  NoDup ts.*2 →
  Forall (entry_ok m σ) ts →
  ∃ ts' evs σ',
    drain_loop fuel vc pick ts.*1.*1 ts.*2 finished log σ
      = Returned (finished ++ ts'.*1.*2, log ++ evs) σ' ∧
    ts' ≡ₚ ts ∧
    frame σ σ' ∧
    (∀ t q r, t ∈ ts → results σ !! t.1.2 = Some q → peek t.2 σ = Some r →
              results σ' !! t.1.2 = Some (finalized q r)) ∧
    (∀ p, p ∉ ts.*1.*2 → results σ' !! p = results σ !! p).
Proof.
  induction fuel as [|fuel IH]; intros pick ts finished log σ Hreg Hlen Hmax Hnd Hok.
  { destruct ts; [|simpl in Hlen; lia].
    exists [], [], σ. simpl. rewrite !app_nil_r.
    split_and!; try done. by intros t q r ?%elem_of_nil. }
  destruct (decide (ts = [])) as [->|Hts].
  { exists [], [], σ. simpl. rewrite !app_nil_r.
    split_and!; try done. by intros t q r ?%elem_of_nil. }
  assert (ts.*1.*1 ≠ []) as Hne.
  { intros Hnil. by apply fmap_nil_inv, fmap_nil_inv in Hnil. }
  destruct (reflect_Select_ready ts.*2 (pick 0) σ)
    as (chosen & c & v & ok & σ1 & Hsel & Hcase & Hrecv).
  { intros Hnil. apply fmap_nil_inv in Hnil. by subst. }
  { by rewrite length_fmap. }
  { apply Forall_fmap. eapply Forall_impl; [exact Hok|].
    intros t (_ & _ & Hp). unfold peek in Hp. simpl.
    destruct (chan_recv t.2 σ); [eauto|by destruct Hp]. }
  rewrite list_lookup_fmap in Hcase.
  destruct (ts !! chosen) as [t|] eqn:Ht; [|done].
  simpl in Hcase. injection Hcase as Htc.
  destruct (swap_remove_perm ts chosen t Ht) as (x & Hlast & Hperm).
  set (ts1 := take (length ts - 1) (<[chosen:=x]> ts)) in *.
  pose proof (proj1 (Forall_forall _ _) Hok t
                (list_elem_of_lookup_2 _ _ _ Ht)) as (Hm & Hchan & _).
  unfold channel_of in Hchan.
  destruct (results σ !! t.1.2) as [q|] eqn:Hq; [|done].
  simpl in Hchan. injection Hchan as Hqc.
  apply chan_recv_inv in Hrecv as Hinv.
  destruct Hinv as ((Hc1 & Ht1 & He1 & Hq1) & Hr1 & Hch1).
  destruct (call_queries_spec t.1.2 (finalize_calls v ok) q σ1)
    as (σ2 & Hcalls & (Hc2 & Ht2 & He2 & Hq2) & Hch2 & Hr2).
  { by rewrite Hr1. }
  (* the remaining entries, in the new store *)
  assert (NoDup (t.2 :: ts1.*2)) as Hnd1.
  { rewrite <-(fmap_cons snd). by rewrite Hperm. }
  apply NoDup_cons in Hnd1 as [Hnotin Hnd1].
  assert (∀ t', t' ∈ ts1 → t' ∈ ts ∧ t'.2 ≠ t.2 ∧ t'.1.2 ≠ t.1.2) as Hrest.
  { intros t' Hin. assert (t' ∈ ts) as Hin'.
    { rewrite <-Hperm. by apply elem_of_cons; right. }
    split; [done|].
    assert (t'.2 ≠ t.2) as Hne2.
    { intros Heq. apply Hnotin. rewrite <-Heq. by apply list_elem_of_fmap_2. }
    split; [done|]. intros Heq.
    pose proof (proj1 (Forall_forall _ _) Hok t' Hin') as (_ & Hchan' & _).
    unfold channel_of in Hchan'. rewrite Heq, Hq in Hchan'. simpl in Hchan'.
    congruence. }
  assert (Forall (entry_ok m σ2) ts1) as Hok1.
  { apply Forall_forall. intros t' Hin.
    destruct (Hrest t' Hin) as (Hin' & Hne2 & Hne1).
    apply (entry_ok_frame m σ).
    - by apply (proj1 (Forall_forall _ _) Hok).
    - rewrite Hr2, lookup_insert_ne by done. by rewrite Hr1.
    - rewrite Hch2. apply Hch1. congruence. }
  assert (length ts1 ≤ fuel) as Hlen1.
  { unfold ts1. rewrite length_take, length_insert. destruct ts; simpl in *; lia. }
  assert (Z.of_nat (length ts1) ≤ max_select_cases)%Z as Hmax1.
  { unfold ts1. rewrite length_take, length_insert. lia. }
  destruct (IH (λ n, pick (S n)) ts1 (finished ++ [t.1.2])
              (log ++ Selected chosen :: (Called t.1.2 <$> finalize_calls v ok)) σ2)
    as (ts' & evs & σ' & Hloop & Hperm' & (Hc' & Ht' & He' & Hq') & Hfin & Hother);
    [by unfold registry in *; rewrite Hq2, Hq1| done | done | done | done |].
  exists (t :: ts'), (Selected chosen :: (Called t.1.2 <$> finalize_calls v ok) ++ evs), σ'.
  split_and!.
  - simpl. destruct (ts.*1.*1) as [|h0 hs0] eqn:Hhs; [done|].
    clear Hne. rewrite <-Hhs. clear h0 hs0 Hhs.
    rewrite Hsel. simpl.
    rewrite !list_lookup_fmap, Ht. simpl.
    rewrite !fmap_last, Hlast. simpl.
    unfold queries_at. rewrite Hq1. unfold registry in Hreg. rewrite Hreg. simpl.
    rewrite Hm. rewrite Hcalls. simpl.
    rewrite !length_fmap.
    rewrite <-!list_fmap_insert, <-!fmap_take. fold ts1.
    rewrite Hloop. f_equal. f_equal.
    + by rewrite <-app_assoc.
    + by rewrite <-app_assoc.
  - by rewrite Hperm', <-Hperm.
  - unfold frame. by rewrite Hc', Ht', He', Hq', Hc2, Ht2, He2, Hq2.
  - intros t' q' r Hin Hq0 Hpk.
    rewrite <-Hperm in Hin. apply elem_of_cons in Hin as [->|Hin].
    + rewrite Hother.
      2:{ intros Hin. apply list_elem_of_fmap in Hin as (hp & Heq & Hin).
          apply list_elem_of_fmap in Hin as (t' & -> & Hin).
          destruct (Hrest t' Hin) as (_ & _ & Hne1). congruence. }
      rewrite Hr2, lookup_insert_eq. rewrite Hq in Hq0. injection Hq0 as <-.
      apply peek_recv in Hpk as [σ1' Hpk]. rewrite Htc, Hrecv in Hpk.
      injection Hpk as -> ->. destruct r; done.
    + destruct (Hrest t' Hin) as (Hin' & Hne2 & Hne1).
      apply Hfin; [done| |].
      * rewrite Hr2, lookup_insert_ne by done. by rewrite Hr1.
      * rewrite <-Hpk. apply peek_ext. rewrite Hch2. apply Hch1. congruence.
  - intros p Hp.
    assert (p ≠ t.1.2) as Hpne.
    { intros ->. apply Hp. do 2 apply list_elem_of_fmap_2.
      by eapply list_elem_of_lookup_2. }
    rewrite Hother.
    + rewrite Hr2, lookup_insert_ne by done. by rewrite Hr1.
    + intros Hin. apply Hp.
      apply list_elem_of_fmap in Hin as (hp & Heq & Hin).
      apply list_elem_of_fmap in Hin as (t' & -> & Hin).
      subst p. do 2 apply list_elem_of_fmap_2.
      by apply Hrest.
Qed.

(** ** The whole of [DrainAll] *)

Lemma shuffle_perm {A} fuel : ∀ pick (l : list A),
  length l ≤ fuel → shuffle fuel pick l ≡ₚ l.
Proof.
  induction fuel as [|fuel IH]; intros pick l Hlen; simpl.
  - destruct l; [done|simpl in Hlen; lia].
  - destruct (l !! (pick 0 `mod` length l)) as [x|] eqn:Hx.
    + rewrite IH.
      * symmetry. by apply delete_Permutation.
      * apply lookup_lt_Some in Hx as Hlt. rewrite length_delete by eauto. lia.
    + apply lookup_ge_None in Hx. destruct l as [|y l]; [done|].
      pose proof (Nat.mod_upper_bound (pick 0) (length (y :: l))) as Hlt.
      simpl in *. lia.
Qed.

Lemma range_order_perm sch (m : gmap Z nat) : range_order sch m ≡ₚ map_to_list m.
Proof.
  unfold range_order. apply shuffle_perm. by rewrite length_map_to_list.
Qed.

(** Every order of the entries is the [range] order of some scheduler. *)
Lemma shuffle_complete {A} (l' : list A) : ∀ l,
  l' ≡ₚ l → ∃ pick, shuffle (length l) pick l = l'.
Proof.
  induction l' as [|x l' IH]; intros l Hperm.
  - apply Permutation_nil_l in Hperm. subst l. by exists (λ _, 0).
  - assert (x ∈ l) as Hin by (rewrite <-Hperm; apply list_elem_of_here).
    apply list_elem_of_lookup in Hin as [i Hi].
    apply lookup_lt_Some in Hi as Hlt.
    destruct (IH (delete i l)) as [pick Hpick].
    { apply (Permutation_cons_inv (a:=x)). rewrite Hperm. by apply delete_Permutation. }
    exists (λ n, match n with 0 => i | S n' => pick n' end).
    destruct l as [|y l]; [simpl in Hlt; lia|].
    change (length (y :: l)) with (S (length l)) at 1.
    cbn [shuffle]. rewrite Nat.mod_small by done. rewrite Hi.
    rewrite length_delete in Hpick by eauto. simpl in Hpick.
    rewrite Nat.sub_0_r in Hpick. f_equal. exact Hpick.
Qed.

(** The loop never runs out of the iterations [DrainAll] gives it. *)
Lemma call_queries_fuel p calls : ∀ σ, call_queries p calls σ ≠ OutOfFuel.
Proof.
  induction calls as [|call rest IH]; intros σ; simpl; [done|].
  unfold call_query. destruct (results σ !! p); simpl; [apply IH|done].
Qed.

Lemma reflect_Select_fuel cases pick σ : reflect_Select cases pick σ ≠ OutOfFuel.
Proof.
  unfold reflect_Select.
  destruct (_ <? _)%Z; [done|].
  destruct (ready_cases σ 0 cases !! _); [|done].
  destruct (cases !! _ ≫= _) as [[[v ok] σ']|]; done.
Qed.

Lemma snapshot_length entries σ hc σ' :
  snapshot entries σ = Returned hc σ' →
  length hc.1 = length entries ∧ length hc.2 = length entries.
Proof.
  revert hc σ'. induction entries as [|[h p] rest IH]; intros hc σ' Hsnap; simpl in *.
  - by simplify_eq.
  - destruct (results σ !! p); [|done].
    destruct (snapshot rest σ) as [hc0 σ0| | |]; try done.
    simpl in Hsnap. injection Hsnap as <- <-. simpl.
    destruct (IH _ _ eq_refl) as [H1 H2]. by rewrite H1, H2.
Qed.

Lemma drain_loop_fuel vc fuel : ∀ pick handles cases finished log σ,
  length handles ≤ fuel →
  drain_loop fuel vc pick handles cases finished log σ ≠ OutOfFuel.
Proof.
  induction fuel as [|fuel IH]; intros pick handles cases finished log σ Hlen;
    destruct handles as [|h0 hs]; simpl in *; try done; try lia.
  pose proof (reflect_Select_fuel cases (pick 0) σ) as Hsel.
  destruct (reflect_Select cases (pick 0) σ) as [[[chosen v] ok] σ1| | |]; simpl; try done.
  destruct ((h0 :: hs) !! chosen) as [handle|]; [|done].
  destruct (last (h0 :: hs)) as [lastHandle|] eqn:Hlast; [|done].
  destruct (last cases) as [lastCase|]; [|done].
  destruct (queries_at vc handle σ1) as [chosenQuery|]; [|done].
  pose proof (call_queries_fuel chosenQuery (finalize_calls v ok) σ1) as Hcalls.
  destruct (call_queries chosenQuery (finalize_calls v ok) σ1) as [[] σ2| | |];
    simpl; try done.
  apply IH. rewrite length_take, length_insert. simpl. lia.
Qed.

Lemma snapshot_fuel entries σ : snapshot entries σ ≠ OutOfFuel.
Proof.
  induction entries as [|[h p] rest IH]; simpl; [done|].
  destruct (results σ !! p); [|done].
  by destruct (snapshot rest σ).
Qed.

Lemma DrainAll_fuel sch vc σ : DrainAll sch vc σ ≠ OutOfFuel.
Proof.
  unfold DrainAll.
  pose proof (snapshot_fuel (range_order sch (default ∅ (queryMaps σ !! queries vc))) σ)
    as Hfuel.
  destruct (snapshot _ σ) as [hc σ'| | |] eqn:Hsnap; simpl; try done.
  apply drain_loop_fuel. apply snapshot_length in Hsnap as [-> _].
  by rewrite range_order_perm, length_map_to_list.
Qed.

Lemma snapshot_spec σ entries :
  Forall (λ hp : Z * nat, is_Some (results σ !! hp.2)) entries →
  snapshot entries σ
  = Returned ((entry_of σ <$> entries).*1.*1, (entry_of σ <$> entries).*2) σ.
Proof.
  induction entries as [|[h p] rest IH]; intros Hall; [done|].
  apply Forall_cons in Hall as [[q Hq] Hall]. simpl in *.
  rewrite Hq, (IH Hall). simpl. unfold channel_of. by rewrite Hq.
Qed.

Lemma completes_lookup σ m h p :
  completes σ m → m !! h = Some p →
  ∃ q r, results σ !! p = Some q ∧ peek (vqr_channel q) σ = Some r.
Proof.
  intros Hall Hp. specialize (Hall h p Hp). simpl in Hall.
  unfold channel_of in Hall. destruct (results σ !! p) as [q|]; simpl in *.
  - destruct Hall as [r Hr]. eauto.
  - by destruct Hall.
Qed.

Lemma DrainAll_spec sch vc σ m :
  registry vc σ m →
  (Z.of_nat (size m) ≤ max_select_cases)%Z →
  completes σ m →
  own_channels σ m →
  ∃ hps evs σ',
    DrainAll sch vc σ = Returned (hps.*2, evs) σ' ∧
    hps ≡ₚ map_to_list m ∧
    frame σ σ' ∧
    (∀ h p q r, m !! h = Some p → results σ !! p = Some q →
                peek (vqr_channel q) σ = Some r →
                results σ' !! p = Some (finalized q r)) ∧
    (∀ p, (∀ h, m !! h ≠ Some p) → results σ' !! p = results σ !! p).
Proof.
  intros Hreg Hmax Hcomp Hown.
  pose proof (range_order_perm sch m) as Hrange.
  set (entries := range_order sch m) in *.
  assert (∀ hp, hp ∈ entries ↔ m !! hp.1 = Some hp.2) as Hentries.
  { intros [h p]. rewrite Hrange. apply elem_of_map_to_list. }
  assert (Forall (λ hp : Z * nat, is_Some (results σ !! hp.2)) entries) as Hlive.
  { apply Forall_forall. intros hp Hin%Hentries.
    destruct (completes_lookup σ m _ _ Hcomp Hin) as (q & _ & -> & _). eauto. }
  set (ts := entry_of σ <$> entries).
  assert (ts.*1 = entries) as Hfst.
  { unfold ts. rewrite <-list_fmap_compose. apply list_fmap_id. }
  destruct (drain_loop_spec vc m (size m) (select_pick sch) ts [] [] σ)
    as (ts' & evs & σ' & Hloop & Hperm & Hframe & Hfin & Hother).
  - done.
  - unfold ts. by rewrite length_fmap, Hrange, length_map_to_list.
  - unfold ts. by rewrite length_fmap, Hrange, length_map_to_list.
  - unfold ts. rewrite <-list_fmap_compose.
    change (snd ∘ entry_of σ) with (default 0 ∘ (λ hp : Z * nat, channel_of σ hp.2)).
    rewrite list_fmap_compose. apply NoDup_fmap_2_strong.
    + intros o1 o2 Hin1 Hin2 Heq.
      apply list_elem_of_fmap in Hin1 as (hp1 & -> & Hin1%Hentries).
      apply list_elem_of_fmap in Hin2 as (hp2 & -> & Hin2%Hentries).
      destruct (completes_lookup σ m _ _ Hcomp Hin1) as (q1 & _ & Hq1 & _).
      destruct (completes_lookup σ m _ _ Hcomp Hin2) as (q2 & _ & Hq2 & _).
      unfold channel_of in *. rewrite Hq1, Hq2 in *. simpl in *. congruence.
    + unfold own_channels in Hown. by rewrite Hrange.
  - apply Forall_forall. intros t Hin.
    apply list_elem_of_fmap in Hin as (hp & -> & Hin%Hentries).
    destruct (completes_lookup σ m _ _ Hcomp Hin) as (q & r & Hq & Hr).
    unfold entry_ok, entry_of, channel_of. simpl. rewrite Hq. simpl. eauto.
  - exists ts'.*1, evs, σ'. split_and!.
    + unfold DrainAll. unfold registry in Hreg. rewrite Hreg. simpl. fold entries.
      rewrite (snapshot_spec _ _ Hlive). simpl. fold ts. by rewrite Hloop.
    + by rewrite Hperm, Hfst.
    + done.
    + intros h p q r Hp Hq Hr.
      apply (Hfin (entry_of σ (h, p))).
      * unfold ts. apply list_elem_of_fmap_2. by apply Hentries.
      * done.
      * unfold entry_of, channel_of. simpl. by rewrite Hq.
    + intros p Hp. apply Hother. rewrite Hfst. intros Hin.
      apply list_elem_of_fmap in Hin as (hp & -> & Hin%Hentries).
      by apply (Hp hp.1).
Qed.

(** ** Properties of [DrainAll] *)





(** C4.  When the value delivered on a registered query's channel is not a
    [driver.Rows] (the registry holding at most 65536 queries, which all
    complete on channels of their own), the query [DrainAll] returns for it
    carries one of the two type-mismatch errors, and no rows are stored on
    it: its rows are nil, or, for a value that is not even an interface,
    what they were. *)
Theorem DrainAll_type_mismatch sch vc σ m h p q v :
  registry vc σ m →
  (Z.of_nat (size m) ≤ max_select_cases)%Z →
  completes σ m →
  own_channels σ m →
  m !! h = Some p →
  results σ !! p = Some q →
  peek (vqr_channel q) σ = Some (v, true) →
  ¬ is_rows v →
  ∃ hps evs σ' q' e,
    DrainAll sch vc σ = Returned (hps.*2, evs) σ' ∧
    (h, p) ∈ hps ∧
    results σ' !! p = Some q' ∧
    vqr_err q' = Some e ∧ type_mismatch e ∧
    vqr_rows q' = match v with
                  | NotInterface _ => vqr_rows q
                  | Interface _ => None
                  end.
Proof.
  intros Hreg Hmax Hcomp Hown Hp Hq Hv Hnot.
  destruct (DrainAll_spec sch vc σ m Hreg Hmax Hcomp Hown)
    as (hps & evs & σ' & Hrun & Hperm & _ & Hfin & _).
  specialize (Hfin h p q (v, true) Hp Hq Hv).
  unfold finalized, finalize_calls, type_mismatch in *. simpl in Hfin.
  destruct v as [k|[[r|tag]|]]; simpl in Hfin.
  - eexists hps, evs, σ', _, _. split_and!; try done.
    + rewrite Hperm. by apply elem_of_map_to_list.
    + by left.
  - destruct Hnot. by exists r.
  - eexists hps, evs, σ', _, _. split_and!; try done.
    + rewrite Hperm. by apply elem_of_map_to_list.
    + by right.
  - eexists hps, evs, σ', _, _. split_and!; try done.
    + rewrite Hperm. by apply elem_of_map_to_list.
    + by right.
Qed.

Lemma DrainAll_type_mismatch_witness :
  ∃ hps evs σ' q' e,
    DrainAll (in_order 0) conn0
      (three_queries (delivered (Interface (Some (DynRows 7))))
                     (delivered (Interface (Some (DynOther 1)))) abandoned)
    = Returned (hps.*2, evs) σ' ∧
    (101%Z, 1) ∈ hps ∧
    results σ' !! 1 = Some q' ∧
    vqr_err q' = Some e ∧ type_mismatch e ∧
    vqr_rows q' = None.
Proof.
  apply (DrainAll_type_mismatch (in_order 0) conn0
           (three_queries (delivered (Interface (Some (DynRows 7))))
                          (delivered (Interface (Some (DynOther 1)))) abandoned)
           three_handles 101%Z 1 (mk_query 11) (Interface (Some (DynOther 1)))).
  - reflexivity.
  - apply (bool_decide_unpack _). vm_compute. exact I.
  - apply (bool_decide_unpack _). vm_compute. exact I.
  - apply (bool_decide_unpack _). vm_compute. exact I.
  - reflexivity.
  - reflexivity.
  - reflexivity.
  - intros [r Hr]. discriminate Hr.
Defined.



(** C9.  With no query registered, [DrainAll] returns the empty list and
    leaves the store as it was; its log is empty, so it has made no
    selection, and it does not block whatever the scheduler is. *)
Theorem DrainAll_empty sch vc σ :
  len_queries vc σ = 0 →
  DrainAll sch vc σ = Returned ([], []) σ.
Proof.
  unfold len_queries, DrainAll. intros Hlen.
  apply map_size_empty_inv in Hlen. rewrite Hlen.
  unfold range_order. rewrite map_size_empty. reflexivity.
Qed.

Lemma DrainAll_empty_witness :
  DrainAll (in_order 0) conn0 opened = Returned ([], []) opened.
Proof. apply (DrainAll_empty (in_order 0) conn0 opened). reflexivity. Defined.

(** [DrainAll] waits for ever for a completion that does not arrive. *)
Example DrainAll_blocks_on_pending :
  DrainAll (in_order 0) conn0
    (three_queries (delivered (Interface (Some (DynRows 7)))) pending abandoned)
  = Blocked.
Proof. vm_compute. reflexivity. Qed.

(** C6, as the claim has it, fails: handle 100 is drained into the output
    and is still registered, to the same query, when [DrainAll] returns. *)
Lemma DrainAll_keeps_entries :
  ∃ out evs σ',
    DrainAll (in_order 0) conn0
      (three_queries (delivered (Interface (Some (DynRows 7))))
                     (delivered (Interface (Some (DynRows 8)))) abandoned)
    = Returned (out, evs) σ' ∧
    0 ∈ out ∧
    queries_at conn0 100 σ' = Some 0.
Proof.
  eexists _, _, _. split; [vm_compute; reflexivity|].
  split; [|reflexivity]. set_solver.
Qed.

(** The drained entries being still registered, a second [DrainAll] selects
    on their channels again, and blocks on those that were emptied. *)
Example DrainAll_again_blocks :
  ∃ out σ',
    DrainAll (in_order 0) conn0
      (three_queries (delivered (Interface (Some (DynRows 7))))
                     (delivered (Interface (Some (DynRows 8)))) abandoned)
    = Returned out σ' ∧
    DrainAll (in_order 0) conn0 σ' = Blocked.
Proof. eexists _, _. split; vm_compute; reflexivity. Qed.

Lemma removeQuery_spec vc han σ m :
  registry vc σ m →
  ∃ σ', removeQuery vc han σ = Returned () σ' ∧ registry vc σ' (delete han m).
Proof.
  unfold registry, removeQuery. intros ->.
  eexists. split; [done|]. simpl. by rewrite lookup_insert_eq.
Qed.


(** The branch of lines 139 to 143: a delivered interface value that is not
    a [driver.Rows] gets [setError] and then [setRows], with nil rows. *)
Lemma finalize_calls_not_rows v :
  ¬ is_rows (Interface v) →
  finalize_calls (Interface v) true
  = [setError (errors_New "unexpected return type, not driver.Rows"); setRows None].
Proof.
  intros Hnot. destruct v as [[r|tag]|]; try done.
  destruct Hnot. by exists r.
Qed.

(** C7, at the failing input: handle 100 is delivered an interface value
    that is not a [driver.Rows]; in one [DrainAll] pass its query gets
    both [setError] and [setRows]. *)
Theorem DrainAll_sets_error_and_rows :
  ∃ out evs σ',
    DrainAll (in_order 0) conn0
      (three_queries (delivered (Interface (Some (DynOther 1))))
                     (delivered (Interface (Some (DynRows 8)))) abandoned)
    = Returned (out, evs) σ' ∧
    calls_on 0 evs
    = [setError (errors_New "unexpected return type, not driver.Rows"); setRows None].
Proof. eexists _, _, _. split; vm_compute; reflexivity. Qed.

(** ** Lifecycle *)

Lemma newVoltConn_opened :
  newVoltConn (Some (TCPConn 0)) (Some (TCPConn 0)) (Some login_reply) one_socket
  = Returned 0 opened.
Proof. vm_compute. reflexivity. Qed.

(** [newVoltConn] takes any reader and stores it. *)
Lemma newVoltConn_reader r w cd σ :
  ∃ p σ', newVoltConn r w cd σ = Returned p σ' ∧
          reader <$> conns σ' !! p = Some r ∧ isOpen <$> conns σ' !! p = Some true.
Proof.
  unfold newVoltConn. eexists _, _. split; [done|].
  simpl. by rewrite lookup_insert_eq.
Qed.

(** What [Close] does when the reader is a live TCP connection: the
    connection object is closed once more, and nothing else changes; the
    struct the caller holds is not written to. *)
Lemma Close_tcp vc c st σ :
  reader vc = Some (TCPConn c) →
  tcpConns σ !! c = Some st →
  Close vc σ
  = Returned (if tcp_closed st then Some (errors_New "use of closed network connection")
              else None)
      (set_tcpConns (insert c {| tcp_closed := true;
                                 tcp_close_calls := S (tcp_close_calls st) |}) σ).
Proof.
  intros Hr Hc. unfold Close, Close_body, TCPConn_Close. by rewrite Hr, Hc.
Qed.

(** C2, at the failing input: a connection whose reader is an open TCP
    connection is closed twice through the pointer the caller holds.  The
    first call returns nil and leaves the stored struct as it was, reader
    included; the second call closes the TCP connection a second time and
    returns its error. *)
Theorem Close_twice_closes_transport_twice p vc c st σ :
  conns σ !! p = Some vc →
  reader vc = Some (TCPConn c) →
  tcpConns σ !! c = Some st →
  tcp_closed st = false →
  ∃ σ1 σ2,
    through_pointer p Close σ = Returned None σ1 ∧
    conns σ1 !! p = Some vc ∧
    tcp_close_calls <$> tcpConns σ1 !! c = Some (S (tcp_close_calls st)) ∧
    through_pointer p Close σ1
    = Returned (Some (errors_New "use of closed network connection")) σ2 ∧
    tcp_close_calls <$> tcpConns σ2 !! c = Some (S (S (tcp_close_calls st))).
Proof.
  intros Hp Hr Hc Hopen. unfold through_pointer. rewrite Hp.
  rewrite (Close_tcp vc c st σ Hr Hc), Hopen.
  eexists _, _. split; [done|]. simpl. rewrite Hp.
  split; [done|]. rewrite lookup_insert_eq. split; [done|].
  erewrite Close_tcp; [|done|by simpl; rewrite lookup_insert_eq].
  split; [done|]. simpl. by rewrite lookup_insert_eq.
Qed.

Lemma Close_twice_closes_transport_twice_witness :
  ∃ σ1 σ2,
    through_pointer 0 Close opened = Returned None σ1 ∧
    conns σ1 !! 0 = Some conn0 ∧
    tcp_close_calls <$> tcpConns σ1 !! 0 = Some 1 ∧
    through_pointer 0 Close σ1
    = Returned (Some (errors_New "use of closed network connection")) σ2 ∧
    tcp_close_calls <$> tcpConns σ2 !! 0 = Some 2.
Proof.
  apply (Close_twice_closes_transport_twice 0 conn0 0
           {| tcp_closed := false; tcp_close_calls := 0 |} opened);
    reflexivity.
Defined.

(** The part of C3 that holds: [Prepare] on a struct that is not open
    returns the error and leaves the store alone. *)
Lemma Prepare_not_open vc query σ :
  isOpen vc = false →
  Prepare vc query σ = Returned (None, Some (errors_New "Connection is closed")) σ.
Proof. unfold Prepare. by intros ->. Qed.

(** C3, at the failing input: an open connection is closed through the
    pointer the caller holds and [Prepare] is called next.  [Close] returns,
    the stored struct is still open, and [Prepare] hands out a statement
    with a nil error. *)
Theorem Prepare_after_Close_succeeds p vc c st query σ :
  conns σ !! p = Some vc →
  isOpen vc = true →
  reader vc = Some (TCPConn c) →
  tcpConns σ !! c = Some st →
  ∃ err σ1,
    through_pointer p Close σ = Returned err σ1 ∧
    isOpen <$> conns σ1 !! p = Some true ∧
    through_pointer p (λ vc, Prepare vc query) σ1
    = Returned (Some (newVoltStatement vc (writer vc) (netListener vc) query), None) σ1.
Proof.
  intros Hp Hopen Hr Hc. unfold through_pointer. rewrite Hp.
  rewrite (Close_tcp vc c st σ Hr Hc).
  eexists _, _. split; [done|]. simpl. rewrite Hp. simpl. rewrite Hopen.
  split; [done|]. unfold Prepare. by rewrite Hopen.
Qed.

Lemma Prepare_after_Close_succeeds_witness :
  ∃ err σ1,
    through_pointer 0 Close opened = Returned err σ1 ∧
    isOpen <$> conns σ1 !! 0 = Some true ∧
    through_pointer 0 (λ vc, Prepare vc "select 1") σ1
    = Returned (Some (newVoltStatement conn0 (writer conn0) (netListener conn0)
                        "select 1"), None) σ1.
Proof.
  apply (Prepare_after_Close_succeeds 0 conn0 0
           {| tcp_closed := false; tcp_close_calls := 0 |} "select 1" opened);
    reflexivity.
Defined.

(** C10.  On a connection whose TCP readers are live connection objects,
    [Close] panics exactly when the reader is non-nil and not a
    [*net.TCPConn], and then with the failed type assertion; [newVoltConn]
    makes a connection from any reader. *)
Theorem Close_unchecked_downcast vc σ :
  (∀ c, reader vc = Some (TCPConn c) → is_Some (tcpConns σ !! c)) →
  (∀ tag, reader vc = Some (OtherStream tag) → Close vc σ = Panicked failed_assertion) ∧
  ((∃ msg, Close vc σ = Panicked msg) → ∃ tag, reader vc = Some (OtherStream tag)) ∧
  (∀ w cd, ∃ p σ', newVoltConn (reader vc) w cd σ = Returned p σ' ∧
                   reader <$> conns σ' !! p = Some (reader vc)).
Proof.
  intros Hlive. split_and!.
  - intros tag Hr. unfold Close, Close_body. by rewrite Hr.
  - intros [msg Hmsg]. destruct (reader vc) as [[c|tag]|] eqn:Hr.
    + destruct (Hlive c eq_refl) as [st Hst].
      by rewrite (Close_tcp vc c st σ Hr Hst) in Hmsg.
    + by exists tag.
    + unfold Close, Close_body in Hmsg. by rewrite Hr in Hmsg.
  - intros w cd. destruct (newVoltConn_reader (reader vc) w cd σ) as (p & σ' & ? & ? & _).
    by exists p, σ'.
Qed.

Lemma Close_unchecked_downcast_witness :
  (∀ tag, reader piped = Some (OtherStream tag) →
          Close piped empty_store = Panicked failed_assertion) ∧
  ((∃ msg, Close piped empty_store = Panicked msg) →
   ∃ tag, reader piped = Some (OtherStream tag)) ∧
  (∀ w cd, ∃ p σ', newVoltConn (reader piped) w cd empty_store = Returned p σ' ∧
                   reader <$> conns σ' !! p = Some (reader piped)).
Proof.
  apply (Close_unchecked_downcast piped empty_store).
  intros c Hc. discriminate Hc.
Defined.

(** C5, as the claim has it, fails: the write of the login frame fails, the
    response is read all the same, and [OpenConn] returns an open
    connection and a nil error. *)
Lemma OpenConn_write_failure_unnoticed :
  writeLoginMessage (server (Some "broken pipe") (inr login_reply)) 0 "login"
  = Some "broken pipe" ∧
  OpenConn (server (Some "broken pipe") (inr login_reply)) "localhost:21212" empty_store
  = Returned (Some 0, None) opened ∧
  isOpen <$> conns opened !! 0 = Some true.
Proof. split_and!; vm_compute; reflexivity. Qed.

(** C5, amended.  A failure to resolve, to dial, to serialize the login
    message or to read the login response from the dialled connection is
    fatal to the open attempt: [OpenConn] returns an error and no
    connection, and no [VoltConn] has been made. *)
Theorem OpenConn_failure_is_fatal env connInfo σ :
  open_failure env connInfo σ →
  ∃ err σ', OpenConn env connInfo σ = Returned (None, Some err) σ' ∧
            conns σ' = conns σ.
Proof.
  unfold OpenConn. intros Hfail.
  destruct (net_ResolveTCPAddr env connInfo) as [e|raddr] eqn:Hres; [by eauto|].
  destruct (net_DialTCP env raddr) as [e|] eqn:Hdial; [by eauto|].
  destruct (serializeLoginMessage env "" "") as [e|login] eqn:Hser; [by eauto|].
  destruct (readLoginResponse env (fresh (dom (tcpConns σ)))) as [e|cd] eqn:Hread;
    [by eauto|].
  destruct Hfail as [[e ?]|[(a & e & ? & ?)|[[e ?]|[e He]]]]; [congruence..|].
  unfold dialled in He. congruence.
Qed.

Lemma OpenConn_failure_is_fatal_witness :
  ∃ err σ',
    OpenConn (server None (inl "EOF")) "localhost:21212" empty_store
    = Returned (None, Some err) σ' ∧
    conns σ' = conns empty_store.
Proof.
  apply (OpenConn_failure_is_fatal (server None (inl "EOF")) "localhost:21212" empty_store).
  right. right. right. exists "EOF". reflexivity.
Defined.

(** ** The registries *)

Lemma store_eq σ σ' :
  conns σ = conns σ' → tcpConns σ = tcpConns σ' → execMaps σ = execMaps σ' →
  queryMaps σ = queryMaps σ' → results σ = results σ' → channels σ = channels σ' →
  σ = σ'.
Proof. destruct σ, σ'. simpl. by intros -> -> -> -> -> ->. Qed.

(** X1.  [registerQuery] called through a pointer to a connection whose
    query map exists writes into that map: the handle then maps to the
    query, every other handle maps to what it did, and the struct, the exec
    registry and the queries themselves are as before. *)
Theorem registerQuery_lookup p vc handle vcr σ m :
  conns σ !! p = Some vc →
  registry vc σ m →
  ∃ σ',
    through_pointer p (λ vc, registerQuery vc handle vcr) σ = Returned () σ' ∧
    conns σ' !! p = Some vc ∧
    registry vc σ' (<[handle := vcr]> m) ∧
    queries_at vc handle σ' = Some vcr ∧
    (∀ h, h ≠ handle → queries_at vc h σ' = queries_at vc h σ) ∧
    execMaps σ' = execMaps σ ∧ results σ' = results σ.
Proof.
  intros Hp Hreg. unfold through_pointer, registerQuery, registry in *.
  rewrite Hp, Hreg. eexists. split; [done|]. unfold queries_at. simpl.
  rewrite lookup_insert_eq, Hreg. simpl. rewrite lookup_insert_eq.
  split_and!; try done. intros h Hne. by rewrite lookup_insert_ne.
Qed.

Lemma registerQuery_lookup_witness :
  ∃ σ',
    through_pointer 0 (λ vc, registerQuery vc 102 2) (two_registered pending pending pending)
    = Returned () σ' ∧
    conns σ' !! 0 = Some conn0 ∧
    registry conn0 σ' (<[102%Z := 2]> two_handles) ∧
    queries_at conn0 102 σ' = Some 2 ∧
    (∀ h, h ≠ 102%Z →
          queries_at conn0 h σ' = queries_at conn0 h (two_registered pending pending pending)) ∧
    execMaps σ' = execMaps (two_registered pending pending pending) ∧
    results σ' = results (two_registered pending pending pending).
Proof.
  apply (registerQuery_lookup 0 conn0 102%Z 2 (two_registered pending pending pending)
           two_handles); reflexivity.
Defined.

(** X2.  [registerQuery] on a handle that is already registered replaces
    its query without a word: the call returns, the handle maps to the new
    query, the registry has as many entries as before, and the query that
    was registered is left as it was. *)
Theorem registerQuery_overwrites vc handle old vcr σ m :
  registry vc σ m →
  m !! handle = Some old →
  ∃ σ',
    registerQuery vc handle vcr σ = Returned () σ' ∧
    queries_at vc handle σ' = Some vcr ∧
    len_queries vc σ' = len_queries vc σ ∧
    results σ' !! old = results σ !! old.
Proof.
  intros Hreg Hold. unfold registerQuery, registry in *. rewrite Hreg.
  eexists. split; [done|]. unfold queries_at, len_queries. simpl.
  rewrite lookup_insert_eq, Hreg. simpl. rewrite lookup_insert_eq.
  split_and!; try done.
  by apply map_size_insert_Some.
Qed.

Lemma registerQuery_overwrites_witness :
  ∃ σ',
    registerQuery conn0 100 2 (two_registered pending pending pending) = Returned () σ' ∧
    queries_at conn0 100 σ' = Some 2 ∧
    len_queries conn0 σ' = len_queries conn0 (two_registered pending pending pending) ∧
    results σ' !! 0 = results (two_registered pending pending pending) !! 0.
Proof.
  apply (registerQuery_overwrites conn0 100%Z 0 2 (two_registered pending pending pending)
           two_handles); reflexivity.
Defined.

(** X3.  Registering a handle that is not registered and removing it again
    gives back the store as it was. *)
Theorem registerQuery_removeQuery vc handle vcr σ m :
  registry vc σ m →
  m !! handle = None →
  ∃ σ1,
    registerQuery vc handle vcr σ = Returned () σ1 ∧
    removeQuery vc handle σ1 = Returned () σ.
Proof.
  intros Hreg Hnone. unfold registerQuery, removeQuery, registry in *. rewrite Hreg.
  eexists. split; [done|]. simpl. rewrite lookup_insert_eq. f_equal.
  apply store_eq; simpl; try done.
  rewrite insert_insert_eq, delete_insert_id by done. by apply insert_id.
Qed.

Lemma registerQuery_removeQuery_witness :
  ∃ σ1,
    registerQuery conn0 102 2 (two_registered pending pending pending) = Returned () σ1 ∧
    removeQuery conn0 102 σ1 = Returned () (two_registered pending pending pending).
Proof.
  apply (registerQuery_removeQuery conn0 102%Z 2 (two_registered pending pending pending)
           two_handles); reflexivity.
Defined.

(** X4.  [removeQuery] of a handle that is not registered, on a map that
    exists or on a nil map, returns and leaves the store as it was. *)
Theorem removeQuery_absent vc han σ :
  queries_at vc han σ = None →
  removeQuery vc han σ = Returned () σ.
Proof.
  unfold queries_at, removeQuery. intros Hnone.
  destruct (queryMaps σ !! queries vc) as [m|] eqn:Hm; [|done]. simpl in Hnone.
  f_equal. apply store_eq; simpl; try done.
  rewrite delete_id by done. by apply insert_id.
Qed.

Lemma removeQuery_absent_witness :
  removeQuery conn0 102 (two_registered pending pending pending)
  = Returned () (two_registered pending pending pending).
Proof.
  apply (removeQuery_absent conn0 102%Z (two_registered pending pending pending)).
  reflexivity.
Defined.

(** X5.  [registerExec] called through a pointer to a connection whose exec
    map exists writes into that map and into nothing else: the handle then
    maps to the channel, the other exec handles and the whole query
    registry are as before. *)
Theorem registerExec_lookup p vc handle c σ em :
  conns σ !! p = Some vc →
  execMaps σ !! execs vc = Some em →
  ∃ σ',
    through_pointer p (λ vc, registerExec vc handle c) σ = Returned () σ' ∧
    execMaps σ' !! execs vc = Some (<[handle := c]> em) ∧
    (∀ k, k ≠ execs vc → execMaps σ' !! k = execMaps σ !! k) ∧
    queryMaps σ' = queryMaps σ ∧ conns σ' = conns σ ∧
    results σ' = results σ ∧ channels σ' = channels σ.
Proof.
  intros Hp Hem. unfold through_pointer, registerExec. rewrite Hp, Hem.
  eexists. split; [done|]. simpl. rewrite lookup_insert_eq.
  split_and!; try done. intros k Hne. by rewrite lookup_insert_ne.
Qed.

Lemma registerExec_lookup_witness :
  ∃ σ',
    through_pointer 0 (λ vc, registerExec vc 5 20) opened = Returned () σ' ∧
    execMaps σ' !! execs conn0 = Some (<[5%Z := 20]> ∅) ∧
    (∀ k, k ≠ execs conn0 → execMaps σ' !! k = execMaps opened !! k) ∧
    queryMaps σ' = queryMaps opened ∧ conns σ' = conns opened ∧
    results σ' = results opened ∧ channels σ' = channels opened.
Proof.
  apply (registerExec_lookup 0 conn0 5%Z 20 opened ∅); reflexivity.
Defined.

(** ** Making and opening connections *)

Lemma fresh_lookup {A} (m : gmap nat A) : m !! fresh (dom m) = None.
Proof. apply not_elem_of_dom, is_fresh. Qed.

Lemma newVoltConn_alloc r w cd σ :
  ∃ p vc σ',
    newVoltConn r w cd σ = Returned p σ' ∧
    conns σ !! p = None ∧ conns σ' !! p = Some vc ∧
    reader vc = r ∧ writer vc = w ∧ isOpen vc = true ∧ connData vc = None ∧
    netListener vc = Some {| nl_reader := r; nl_started := true |} ∧
    execMaps σ !! execs vc = None ∧ execMaps σ' !! execs vc = Some ∅ ∧
    queryMaps σ !! queries vc = None ∧ registry vc σ' ∅ ∧
    (∀ p0, p0 ≠ p → conns σ' !! p0 = conns σ !! p0) ∧
    (∀ k, k ≠ execs vc → execMaps σ' !! k = execMaps σ !! k) ∧
    (∀ k, k ≠ queries vc → queryMaps σ' !! k = queryMaps σ !! k) ∧
    tcpConns σ' = tcpConns σ ∧ results σ' = results σ ∧ channels σ' = channels σ.
Proof.
  unfold newVoltConn, registry. eexists _, _, _. split; [done|]. simpl.
  rewrite !lookup_insert_eq, !fresh_lookup.
  split_and!; try done; simpl;
    rewrite ?lookup_insert_eq, ?fresh_lookup; try done;
    intros k Hne; by rewrite lookup_insert_ne.
Qed.

(** X6.  [newVoltConn] returns a connection that was not there before: it
    is open, holds the reader and writer it was given, has a started
    listener on the reader and two new, empty maps; its [connData] is nil
    whatever login data was passed; the connections and maps that existed
    are as before. *)
Theorem newVoltConn_fresh r w cd σ :
  ∃ p vc σ',
    newVoltConn r w cd σ = Returned p σ' ∧
    conns σ !! p = None ∧ conns σ' !! p = Some vc ∧
    reader vc = r ∧ writer vc = w ∧ isOpen vc = true ∧ connData vc = None ∧
    netListener vc = Some {| nl_reader := r; nl_started := true |} ∧
    execMaps σ !! execs vc = None ∧ execMaps σ' !! execs vc = Some ∅ ∧
    queryMaps σ !! queries vc = None ∧ registry vc σ' ∅ ∧
    (∀ p0, p0 ≠ p → conns σ' !! p0 = conns σ !! p0) ∧
    (∀ k, k ≠ execs vc → execMaps σ' !! k = execMaps σ !! k) ∧
    (∀ k, k ≠ queries vc → queryMaps σ' !! k = queryMaps σ !! k) ∧
    tcpConns σ' = tcpConns σ ∧ results σ' = results σ ∧ channels σ' = channels σ.
Proof. exact (newVoltConn_alloc r w cd σ). Qed.

(** X7.  Connections do not share registries: a query registered on a
    connection just made by [newVoltConn] shows in that connection's
    registry and leaves an earlier connection and its registry as they
    were. *)
Theorem newVoltConn_isolated r w cd handle vcr σ p0 vc0 m0 :
  conns σ !! p0 = Some vc0 →
  registry vc0 σ m0 →
  ∃ p vc σ1 σ2,
    newVoltConn r w cd σ = Returned p σ1 ∧
    p ≠ p0 ∧ conns σ1 !! p = Some vc ∧
    registerQuery vc handle vcr σ1 = Returned () σ2 ∧
    queries_at vc handle σ2 = Some vcr ∧
    conns σ2 !! p0 = Some vc0 ∧ registry vc0 σ2 m0.
Proof.
  intros Hp0 Hreg0.
  destruct (newVoltConn_alloc r w cd σ)
    as (p & vc & σ1 & Hnew & Hfresh & Hp & _ & _ & _ & _ & _ & _ & _ & Hq & Hreg & Hconns & _ & Hmaps & _).
  assert (p ≠ p0) as Hne by congruence.
  assert (queries vc ≠ queries vc0) as Hneq.
  { unfold registry in Hreg0. congruence. }
  exists p, vc, σ1. unfold registerQuery. unfold registry in Hreg. rewrite Hreg.
  eexists. split_and!; try done.
  - unfold queries_at. simpl. rewrite lookup_insert_eq. simpl. apply lookup_insert_eq.
  - simpl. by rewrite Hconns.
  - unfold registry. simpl. rewrite lookup_insert_ne by done. by rewrite Hmaps.
Qed.

Lemma newVoltConn_isolated_witness :
  ∃ p vc σ1 σ2,
    newVoltConn (Some (OtherStream 1)) (Some (OtherStream 1)) None
      (two_registered pending pending pending) = Returned p σ1 ∧
    p ≠ 0 ∧ conns σ1 !! p = Some vc ∧
    registerQuery vc 100 2 σ1 = Returned () σ2 ∧
    queries_at vc 100 σ2 = Some 2 ∧
    conns σ2 !! 0 = Some conn0 ∧ registry conn0 σ2 two_handles.
Proof.
  apply (newVoltConn_isolated (Some (OtherStream 1)) (Some (OtherStream 1)) None 100%Z 2
           (two_registered pending pending pending) 0 conn0 two_handles); reflexivity.
Defined.

Lemma OpenConn_opens env connInfo σ raddr login cd :
  net_ResolveTCPAddr env connInfo = inr raddr →
  net_DialTCP env raddr = None →
  serializeLoginMessage env "" "" = inr login →
  readLoginResponse env (dialled σ) = inr cd →
  ∃ p vc c σ',
    OpenConn env connInfo σ = Returned (Some p, None) σ' ∧
    conns σ !! p = None ∧ conns σ' !! p = Some vc ∧ isOpen vc = true ∧
    reader vc = Some (TCPConn c) ∧ writer vc = Some (TCPConn c) ∧
    tcpConns σ !! c = None ∧
    tcpConns σ' !! c = Some {| tcp_closed := false; tcp_close_calls := 0 |} ∧
    netListener vc = Some {| nl_reader := Some (TCPConn c); nl_started := true |} ∧
    connData vc = None ∧
    registry vc σ' ∅ ∧ execMaps σ' !! execs vc = Some ∅.
Proof.
  intros Hres Hdial Hser Hread. unfold OpenConn. unfold dialled in Hread.
  rewrite Hres, Hdial, Hser, Hread.
  set (c := fresh (dom (tcpConns σ))).
  set (σ1 := set_tcpConns _ σ).
  destruct (newVoltConn_alloc (Some (TCPConn c)) (Some (TCPConn c)) (Some cd) σ1)
    as (p & vc & σ' & Hnew & Hfresh & Hp & Hr & Hw & Hopen & Hcd & Hnl & _ & Hex & _ & Hreg
        & _ & _ & _ & Htcp & _).
  rewrite Hnew. simpl. exists p, vc, c, σ'.
  split_and!; try done.
  - apply fresh_lookup.
  - rewrite Htcp. unfold σ1. simpl. apply lookup_insert_eq.
Qed.

(** X8.  When the address resolves, the dial succeeds, the login message
    serializes and the login response is read from the dialled connection,
    [OpenConn] returns a new,
    open connection and a nil error.  Reader and writer are one and the
    same newly dialled TCP connection, which is open; the listener is
    started on it; both registries are empty; and the login response that
    was read is not kept: [connData] is nil. *)
Theorem OpenConn_success env connInfo σ raddr login cd :
  net_ResolveTCPAddr env connInfo = inr raddr →
  net_DialTCP env raddr = None →
  serializeLoginMessage env "" "" = inr login →
  readLoginResponse env (dialled σ) = inr cd →
  ∃ p vc c σ',
    OpenConn env connInfo σ = Returned (Some p, None) σ' ∧
    conns σ !! p = None ∧ conns σ' !! p = Some vc ∧ isOpen vc = true ∧
    reader vc = Some (TCPConn c) ∧ writer vc = Some (TCPConn c) ∧
    tcpConns σ !! c = None ∧
    tcpConns σ' !! c = Some {| tcp_closed := false; tcp_close_calls := 0 |} ∧
    netListener vc = Some {| nl_reader := Some (TCPConn c); nl_started := true |} ∧
    connData vc = None ∧
    registry vc σ' ∅ ∧ execMaps σ' !! execs vc = Some ∅.
Proof. exact (OpenConn_opens env connInfo σ raddr login cd). Qed.

Lemma OpenConn_success_witness :
  ∃ p vc c σ',
    OpenConn (server None (inr login_reply)) "localhost:21212" empty_store
    = Returned (Some p, None) σ' ∧
    conns empty_store !! p = None ∧ conns σ' !! p = Some vc ∧ isOpen vc = true ∧
    reader vc = Some (TCPConn c) ∧ writer vc = Some (TCPConn c) ∧
    tcpConns empty_store !! c = None ∧
    tcpConns σ' !! c = Some {| tcp_closed := false; tcp_close_calls := 0 |} ∧
    netListener vc = Some {| nl_reader := Some (TCPConn c); nl_started := true |} ∧
    connData vc = None ∧
    registry vc σ' ∅ ∧ execMaps σ' !! execs vc = Some ∅.
Proof.
  apply (OpenConn_success (server None (inr login_reply)) "localhost:21212" empty_store
           0 "login" login_reply); reflexivity.
Defined.

(** X9.  Whenever [OpenConn] returns, what it returns is either a
    connection with a nil error, the connection being open in the store,
    or no connection with an error, no connection having been made. *)
Theorem OpenConn_conn_or_error env connInfo σ r σ' :
  OpenConn env connInfo σ = Returned r σ' →
  (∃ p, r = (Some p, None) ∧ isOpen <$> conns σ' !! p = Some true) ∨
  (∃ e, r = (None, Some e) ∧ conns σ' = conns σ).
Proof.
  unfold OpenConn.
  destruct (net_ResolveTCPAddr env connInfo) as [e|raddr];
    [intros [= <- <-]; by eauto|].
  destruct (net_DialTCP env raddr) as [e|]; [intros [= <- <-]; by eauto|].
  destruct (serializeLoginMessage env "" "") as [e|login];
    [intros [= <- <-]; by eauto|].
  destruct (readLoginResponse env _) as [e|cd]; [intros [= <- <-]; by eauto|].
  set (σ1 := set_tcpConns _ σ).
  destruct (newVoltConn_reader (Some (TCPConn (fresh (dom (tcpConns σ)))))
              (Some (TCPConn (fresh (dom (tcpConns σ))))) (Some cd) σ1)
    as (p & σ2 & Hnew & _ & Hopen).
  rewrite Hnew. simpl. intros [= <- <-]. left. by exists p.
Qed.

Lemma OpenConn_conn_or_error_witness :
  ∃ r σ',
    OpenConn (server (Some "broken pipe") (inl "EOF")) "localhost:21212" one_socket
    = Returned r σ' ∧
    ((∃ p, r = (Some p, None) ∧ isOpen <$> conns σ' !! p = Some true) ∨
     (∃ e, r = (None, Some e) ∧ conns σ' = conns one_socket)).
Proof.
  eexists _, _. split; [vm_compute; reflexivity|].
  eapply (OpenConn_conn_or_error (server (Some "broken pipe") (inl "EOF"))
            "localhost:21212" one_socket).
  vm_compute. reflexivity.
Defined.

(** X10.  When resolving or dialling fails, [OpenConn] leaves the store as
    it was.  A failure to resolve is reported as "Error resolving" followed
    by the address and a full stop, whatever the resolver's error was; a
    failure to dial is reported with the dialler's error. *)
Theorem OpenConn_early_failure env connInfo σ :
  (∃ e, net_ResolveTCPAddr env connInfo = inl e) ∨
  (∃ raddr e, net_ResolveTCPAddr env connInfo = inr raddr ∧
              net_DialTCP env raddr = Some e) →
  ∃ err,
    OpenConn env connInfo σ = Returned (None, Some err) σ ∧
    ((∃ e, net_ResolveTCPAddr env connInfo = inl e) →
     err = "Error resolving " +:+ connInfo +:+ ".") ∧
    (∀ raddr e, net_ResolveTCPAddr env connInfo = inr raddr →
                net_DialTCP env raddr = Some e → err = e).
Proof.
  unfold OpenConn. intros [[e Hres]|(raddr & e & Hres & Hdial)].
  - rewrite Hres. eexists. split_and!; [done|done|]. congruence.
  - rewrite Hres, Hdial. eexists. split_and!; [done| |].
    + intros [e' ?]. congruence.
    + congruence.
Qed.

Lemma OpenConn_early_failure_witness :
  ∃ err,
    OpenConn
      {| net_ResolveTCPAddr := λ _, inl "no such host";
         net_DialTCP := λ _, None;
         serializeLoginMessage := λ _ _, inr "login";
         writeLoginMessage := λ _ _, None;
         readLoginResponse := λ _, inr login_reply |}
      "nowhere:21212" one_socket
    = Returned (None, Some err) one_socket ∧
    ((∃ e, @inl error nat "no such host" = inl e) →
     err = "Error resolving " +:+ "nowhere:21212" +:+ ".") ∧
    (∀ raddr e, @inl error nat "no such host" = inr raddr →
                @None error = Some e → err = e).
Proof.
  apply (OpenConn_early_failure
           {| net_ResolveTCPAddr := λ _, inl "no such host";
              net_DialTCP := λ _, None;
              serializeLoginMessage := λ _ _, inr "login";
              writeLoginMessage := λ _ _, None;
              readLoginResponse := λ _, inr login_reply |}
           "nowhere:21212" one_socket).
  left. exists "no such host". reflexivity.
Defined.

(** X11.  When the dial has succeeded and serializing the login message or
    reading the login response from the dialled connection fails,
    [OpenConn] returns that error as it is and no connection, and the TCP
    connection it dialled stays in the store, open: [Close] has not been
    called on it. *)
Theorem OpenConn_late_failure env connInfo σ raddr :
  net_ResolveTCPAddr env connInfo = inr raddr →
  net_DialTCP env raddr = None →
  (∃ e, serializeLoginMessage env "" "" = inl e) ∨
  (∃ e, readLoginResponse env (dialled σ) = inl e) →
  ∃ err σ',
    OpenConn env connInfo σ = Returned (None, Some err) σ' ∧
    (serializeLoginMessage env "" "" = inl err ∨
     readLoginResponse env (dialled σ) = inl err) ∧
    tcpConns σ !! dialled σ = None ∧
    tcpConns σ' !! dialled σ = Some {| tcp_closed := false; tcp_close_calls := 0 |} ∧
    conns σ' = conns σ.
Proof.
  intros Hres Hdial Hfail. unfold OpenConn, dialled in *. rewrite Hres, Hdial.
  destruct (serializeLoginMessage env "" "") as [e|login] eqn:Hser.
  - eexists e, _. split_and!; [done|by left|apply fresh_lookup| |done].
    simpl. apply lookup_insert_eq.
  - destruct Hfail as [[e ?]|[e Hread]]; [done|].
    rewrite Hread. eexists e, _.
    split_and!; [done|by right|apply fresh_lookup| |done].
    simpl. apply lookup_insert_eq.
Qed.

Lemma OpenConn_late_failure_witness :
  ∃ err σ',
    OpenConn (server None (inl "EOF")) "localhost:21212" empty_store
    = Returned (None, Some err) σ' ∧
    (serializeLoginMessage (server None (inl "EOF")) "" "" = inl err ∨
     readLoginResponse (server None (inl "EOF")) (dialled empty_store) = inl err) ∧
    tcpConns empty_store !! dialled empty_store = None ∧
    tcpConns σ' !! dialled empty_store
    = Some {| tcp_closed := false; tcp_close_calls := 0 |} ∧
    conns σ' = conns empty_store.
Proof.
  apply (OpenConn_late_failure (server None (inl "EOF")) "localhost:21212" empty_store 0).
  - reflexivity.
  - reflexivity.
  - right. exists "EOF". reflexivity.
Defined.

(** X12.  Whenever [Close] returns, it has changed nothing but the TCP
    connection behind the reader: the caller's struct, both registries, the
    registered queries and their channels are as before, so pending
    queries stay registered and their channels stay as they are.  With a
    nil reader it returns nil and changes nothing at all. *)
Theorem Close_leaves_registries p vc err σ σ' :
  conns σ !! p = Some vc →
  through_pointer p Close σ = Returned err σ' →
  conns σ' = conns σ ∧ execMaps σ' = execMaps σ ∧ queryMaps σ' = queryMaps σ ∧
  results σ' = results σ ∧ channels σ' = channels σ ∧
  (∀ c, reader vc ≠ Some (TCPConn c) → tcpConns σ' !! c = tcpConns σ !! c) ∧
  (reader vc = None → err = None ∧ σ' = σ).
Proof.
  intros Hp. unfold through_pointer, Close, Close_body. rewrite Hp.
  destruct (reader vc) as [[c|tag]|]; simpl; [|done|].
  - unfold TCPConn_Close. destruct (tcpConns σ !! c) as [st|]; [|done]. simpl.
    intros [= <- <-]. simpl. split_and!; try done.
    intros c' Hne. rewrite lookup_insert_ne; [done|congruence].
  - intros [= <- <-]. done.
Qed.

Lemma Close_leaves_registries_witness :
  conns (set_tcpConns (insert 0 {| tcp_closed := true; tcp_close_calls := 1 |})
           (three_queries pending pending pending))
  = conns (three_queries pending pending pending) ∧
  execMaps (set_tcpConns (insert 0 {| tcp_closed := true; tcp_close_calls := 1 |})
              (three_queries pending pending pending))
  = execMaps (three_queries pending pending pending) ∧
  queryMaps (set_tcpConns (insert 0 {| tcp_closed := true; tcp_close_calls := 1 |})
               (three_queries pending pending pending))
  = queryMaps (three_queries pending pending pending) ∧
  results (set_tcpConns (insert 0 {| tcp_closed := true; tcp_close_calls := 1 |})
             (three_queries pending pending pending))
  = results (three_queries pending pending pending) ∧
  channels (set_tcpConns (insert 0 {| tcp_closed := true; tcp_close_calls := 1 |})
              (three_queries pending pending pending))
  = channels (three_queries pending pending pending) ∧
  (∀ c, reader conn0 ≠ Some (TCPConn c) →
        tcpConns (set_tcpConns (insert 0 {| tcp_closed := true; tcp_close_calls := 1 |})
                    (three_queries pending pending pending)) !! c
        = tcpConns (three_queries pending pending pending) !! c) ∧
  (reader conn0 = None →
   @None error = None ∧
   set_tcpConns (insert 0 {| tcp_closed := true; tcp_close_calls := 1 |})
     (three_queries pending pending pending)
   = three_queries pending pending pending).
Proof.
  apply (Close_leaves_registries 0 conn0 None (three_queries pending pending pending)
           (set_tcpConns (insert 0 {| tcp_closed := true; tcp_close_calls := 1 |})
              (three_queries pending pending pending)));
    reflexivity.
Defined.

(** ** More on [DrainAll] *)

Lemma reflect_Select_inv cases pick σ chosen v ok σ1 :
  reflect_Select cases pick σ = Returned (chosen, v, ok) σ1 →
  ∃ c, cases !! chosen = Some c ∧ chan_recv c σ = Some (v, ok, σ1).
Proof.
  unfold reflect_Select.
  destruct (_ <? _)%Z; [done|].
  destruct (ready_cases σ 0 cases !! _) as [i|]; [|done].
  destruct (cases !! i) as [c|] eqn:Hc; simpl; [|done].
  destruct (chan_recv c σ) as [[[v' ok'] σ']|] eqn:Hr; [|done].
  intros [= <- <- <- <-]. eauto.
Qed.

Lemma call_queries_inv p calls : ∀ σ σ2,
  call_queries p calls σ = Returned () σ2 →
  frame σ σ2 ∧ channels σ2 = channels σ ∧
  ∀ p', p' ≠ p → results σ2 !! p' = results σ !! p'.
Proof.
  induction calls as [|call rest IH]; intros σ σ2; simpl.
  - intros [= <-]. done.
  - unfold call_query. destruct (results σ !! p) as [q|]; [|done]. simpl.
    intros Hrest. apply IH in Hrest as ((Hc & Ht & He & Hq) & Hch & Hres).
    simpl in *. split_and!; try done.
    intros p' Hne. rewrite Hres by done. simpl. by rewrite lookup_insert_ne.
Qed.

Lemma selections_app l1 l2 : selections (l1 ++ l2) = selections l1 + selections l2.
Proof.
  induction l1 as [|[chosen|p c] l1 IH]; simpl; [done| |done]. by rewrite IH.
Qed.

Lemma selections_calls p calls : selections (Called p <$> calls) = 0.
Proof. by induction calls. Qed.

Lemma drain_loop_inv vc fuel : ∀ pick handles cases fin log σ out log' σ',
  drain_loop fuel vc pick handles cases fin log σ = Returned (out, log') σ' →
  ∃ ps evs,
    out = fin ++ ps ∧ log' = log ++ evs ∧
    length ps = length handles ∧ selections evs = length handles ∧
    (∀ p, p ∈ ps → ∃ h, queries_at vc h σ = Some p) ∧
    frame σ σ' ∧
    (∀ p, (∀ h, queries_at vc h σ ≠ Some p) → results σ' !! p = results σ !! p).
Proof.
  induction fuel as [|fuel IH]; intros pick handles cases fin log σ out log' σ';
    destruct handles as [|h0 hs] eqn:Hhs; simpl; try done.
  1,2: intros [= <- <- <-]; exists [], []; rewrite !app_nil_r;
       split_and!; try done; by intros p ?%elem_of_nil.
  rewrite <-Hhs.
  destruct (reflect_Select cases (pick 0) σ) as [[[chosen v] ok] σ1| | |] eqn:Hsel;
    simpl; try done.
  apply reflect_Select_inv in Hsel as (c & Hc & Hrecv).
  apply chan_recv_inv in Hrecv as ((Hc1 & Ht1 & He1 & Hq1) & Hr1 & _).
  destruct (handles !! chosen) as [handle|] eqn:Hh; [|done].
  destruct (last handles) as [lastHandle|]; [|done].
  destruct (last cases) as [lastCase|]; [|done].
  destruct (queries_at vc handle σ1) as [chosenQuery|] eqn:Hat; [|done].
  destruct (call_queries chosenQuery (finalize_calls v ok) σ1) as [[] σ2| | |] eqn:Hcalls;
    simpl; try done.
  apply call_queries_inv in Hcalls as ((Hc2 & Ht2 & He2 & Hq2) & _ & Hr2).
  intros Hloop. apply IH in Hloop
    as (ps & evs & -> & -> & Hlen & Hsels & Hreg & (Hc' & Ht' & He' & Hq') & Hother).
  assert (∀ h, queries_at vc h σ2 = queries_at vc h σ) as Hsame.
  { intros h. unfold queries_at. by rewrite Hq2, Hq1. }
  exists (chosenQuery :: ps),
         (Selected chosen :: (Called chosenQuery <$> finalize_calls v ok) ++ evs).
  split_and!.
  - by rewrite <-app_assoc.
  - by rewrite <-app_assoc.
  - simpl. rewrite Hlen, length_take, length_insert. subst handles. simpl. lia.
  - simpl. rewrite selections_app, selections_calls, Hsels, length_take, length_insert.
    subst handles. simpl. lia.
  - intros p [->|Hin]%elem_of_cons.
    + exists handle. unfold queries_at in *. by rewrite <-Hq1.
    + destruct (Hreg p Hin) as [h Hp]. exists h. by rewrite <-Hsame.
  - unfold frame. by rewrite Hc', Ht', He', Hq', Hc2, Ht2, He2, Hq2.
  - intros p Hp. rewrite Hother.
    + rewrite Hr2; [by rewrite Hr1|]. intros ->. apply (Hp handle).
      unfold queries_at in *. by rewrite <-Hq1.
    + intros h. rewrite Hsame. apply Hp.
Qed.

Lemma DrainAll_inv sch vc σ out evs σ' :
  DrainAll sch vc σ = Returned (out, evs) σ' →
  length out = len_queries vc σ ∧ selections evs = len_queries vc σ ∧
  (∀ p, p ∈ out → ∃ h, queries_at vc h σ = Some p) ∧
  frame σ σ' ∧
  (∀ p, (∀ h, queries_at vc h σ ≠ Some p) → results σ' !! p = results σ !! p).
Proof.
  unfold DrainAll, len_queries.
  set (m := default ∅ (queryMaps σ !! queries vc)).
  destruct (snapshot (range_order sch m) σ) as [hc σ0| | |] eqn:Hsnap; simpl; try done.
  assert (σ0 = σ) as ->.
  { revert hc Hsnap. generalize (range_order sch m). intros entries.
    induction entries as [|[h p] rest IH]; intros hc; simpl.
    - by intros [= _ <-].
    - destruct (results σ !! p); [|done].
      destruct (snapshot rest σ) as [hc0 σ1| | |]; simpl; try done.
      intros [= _ <-]. by eapply IH. }
  apply snapshot_length in Hsnap as [Hlen _].
  rewrite range_order_perm, length_map_to_list in Hlen.
  intros Hloop. apply drain_loop_inv in Hloop
    as (ps & evs' & -> & -> & Hps & Hsels & Hreg & Hframe & Hother).
  simpl. by rewrite Hps, Hsels, Hlen.
Qed.

(** Above 65536 registered queries the first selection panics. *)
Lemma DrainAll_too_many sch vc σ m :
  registry vc σ m →
  (max_select_cases < Z.of_nat (size m))%Z →
  map_Forall (λ _ p, is_Some (results σ !! p)) m →
  DrainAll sch vc σ = Panicked "reflect.Select: too many cases (max 65536)".
Proof.
  intros Hreg Hmax Hlive. unfold DrainAll. unfold registry in Hreg. rewrite Hreg. simpl.
  pose proof (range_order_perm sch m) as Hperm.
  set (entries := range_order sch m) in *.
  rewrite snapshot_spec.
  2:{ apply Forall_forall. intros [h p] Hin. rewrite Hperm in Hin.
      apply elem_of_map_to_list in Hin. by apply (Hlive h p). }
  simpl.
  assert (length entries = size m) as Hlen by (by rewrite Hperm, length_map_to_list).
  destruct (size m) as [|n] eqn:Hsize; [unfold max_select_cases in Hmax; lia|].
  destruct entries as [|hp rest]; [done|]. cbn [fmap list_fmap drain_loop bind].
  unfold reflect_Select at 1.
  replace (length _) with (S n).
  - by rewrite (proj2 (Z.ltb_lt _ _) Hmax).
  - simpl. rewrite !length_fmap. simpl in Hlen. lia.
Qed.

(** C6, amended.  [DrainAll] does not remove the entries it consumes:
    whenever it returns, the query registry is the map it was at call time
    and every query of its output list is still registered.  An entry is
    removed by [removeQuery]: after it the handle is absent and the other
    handles are registered as before. *)
Theorem DrainAll_registry_unchanged sch vc σ out evs σ' :
  DrainAll sch vc σ = Returned (out, evs) σ' →
  queryMaps σ' = queryMaps σ ∧
  (∀ p, p ∈ out → ∃ h, queries_at vc h σ' = Some p) ∧
  ∀ han, ∃ σ'',
    removeQuery vc han σ' = Returned () σ'' ∧
    queries_at vc han σ'' = None ∧
    ∀ h, h ≠ han → queries_at vc h σ'' = queries_at vc h σ.
Proof.
  intros Hrun. apply DrainAll_inv in Hrun as (_ & _ & Hreg & (_ & _ & _ & Hqm) & _).
  assert (∀ h, queries_at vc h σ' = queries_at vc h σ) as Hsame.
  { intros h. unfold queries_at. by rewrite Hqm. }
  split_and!; [done| |].
  - intros p Hin. destruct (Hreg p Hin) as [h Hh]. exists h. by rewrite Hsame.
  - intros han. destruct (queryMaps σ' !! queries vc) as [m|] eqn:Hm.
    + destruct (removeQuery_spec vc han σ' m Hm) as (σ'' & Hrm & Hreg'').
      exists σ''. unfold registry in Hreg''. split_and!; [done| |].
      * unfold queries_at. rewrite Hreg''. simpl. apply lookup_delete_eq.
      * intros h Hne. rewrite <-Hsame. unfold queries_at. rewrite Hreg'', Hm. simpl.
        by rewrite lookup_delete_ne.
    + exists σ'. unfold removeQuery. rewrite Hm. split_and!; [done| |].
      * unfold queries_at. by rewrite Hm.
      * intros h _. apply Hsame.
Qed.

Lemma DrainAll_registry_unchanged_witness :
  ∃ out evs σ',
    DrainAll (in_order 0) conn0
      (three_queries (delivered (Interface (Some (DynRows 7))))
                     (delivered (Interface (Some (DynRows 8)))) abandoned)
    = Returned (out, evs) σ' ∧
    queryMaps σ'
    = queryMaps (three_queries (delivered (Interface (Some (DynRows 7))))
                               (delivered (Interface (Some (DynRows 8)))) abandoned) ∧
    (∀ p, p ∈ out → ∃ h, queries_at conn0 h σ' = Some p) ∧
    ∀ han, ∃ σ'',
      removeQuery conn0 han σ' = Returned () σ'' ∧
      queries_at conn0 han σ'' = None ∧
      ∀ h, h ≠ han →
           queries_at conn0 h σ''
           = queries_at conn0 h
               (three_queries (delivered (Interface (Some (DynRows 7))))
                              (delivered (Interface (Some (DynRows 8)))) abandoned).
Proof.
  eexists _, _, _. split; [vm_compute; reflexivity|].
  eapply (DrainAll_registry_unchanged (in_order 0) conn0
            (three_queries (delivered (Interface (Some (DynRows 7))))
                           (delivered (Interface (Some (DynRows 8)))) abandoned)).
  vm_compute. reflexivity.
Defined.

(** X13.  Whenever [DrainAll] returns, it returns as many entries as there
    are registered queries, never fewer; it has called [reflect.Select]
    that many times; and every entry is a query that was registered when
    it was called. *)
Theorem DrainAll_returns_all sch vc σ out evs σ' :
  DrainAll sch vc σ = Returned (out, evs) σ' →
  length out = len_queries vc σ ∧
  selections evs = len_queries vc σ ∧
  ∀ p, p ∈ out → ∃ h, queries_at vc h σ = Some p.
Proof.
  intros Hrun. apply DrainAll_inv in Hrun as (? & ? & ? & _). done.
Qed.

Lemma DrainAll_returns_all_witness :
  length [1; 0; 2] = len_queries conn0
    (three_queries (delivered (Interface (Some (DynRows 7))))
                   (delivered (Interface (Some (DynOther 1)))) abandoned) ∧
  selections
    [Selected 0; Called 1 (setError "unexpected return type, not driver.Rows");
     Called 1 (setRows None); Selected 0; Called 0 (setRows (Some 7)); Selected 0;
     Called 2 (setError "Result was not available, channel was closed")]
  = len_queries conn0
      (three_queries (delivered (Interface (Some (DynRows 7))))
                     (delivered (Interface (Some (DynOther 1)))) abandoned) ∧
  ∀ p, p ∈ [1; 0; 2] →
       ∃ h, queries_at conn0 h
              (three_queries (delivered (Interface (Some (DynRows 7))))
                             (delivered (Interface (Some (DynOther 1)))) abandoned)
            = Some p.
Proof.
  refine (DrainAll_returns_all (in_order 0) conn0
            (three_queries (delivered (Interface (Some (DynRows 7))))
                           (delivered (Interface (Some (DynOther 1)))) abandoned)
            _ _ _ _).
  vm_compute. reflexivity.
Defined.

(** X14.  Whenever [DrainAll] returns, the connections, the TCP
    connections and both registries are as before, exec registrations
    included, and so is every query that was not registered. *)
Theorem DrainAll_touches_only_registered sch vc σ out evs σ' :
  DrainAll sch vc σ = Returned (out, evs) σ' →
  conns σ' = conns σ ∧ tcpConns σ' = tcpConns σ ∧
  execMaps σ' = execMaps σ ∧ queryMaps σ' = queryMaps σ ∧
  ∀ p, (∀ h, queries_at vc h σ ≠ Some p) → results σ' !! p = results σ !! p.
Proof.
  intros Hrun. apply DrainAll_inv in Hrun as (_ & _ & _ & (? & ? & ? & ?) & ?). done.
Qed.

Lemma DrainAll_touches_only_registered_witness :
  ∃ out evs σ',
    DrainAll (in_order 0) conn0
      (two_registered (delivered (Interface (Some (DynRows 7)))) abandoned pending)
    = Returned (out, evs) σ' ∧
    conns σ' = conns (two_registered (delivered (Interface (Some (DynRows 7)))) abandoned pending) ∧
    tcpConns σ' = tcpConns (two_registered (delivered (Interface (Some (DynRows 7)))) abandoned pending) ∧
    execMaps σ' = execMaps (two_registered (delivered (Interface (Some (DynRows 7)))) abandoned pending) ∧
    queryMaps σ' = queryMaps (two_registered (delivered (Interface (Some (DynRows 7)))) abandoned pending) ∧
    ∀ p, (∀ h, queries_at conn0 h
                 (two_registered (delivered (Interface (Some (DynRows 7)))) abandoned pending)
               ≠ Some p) →
         results σ' !! p
         = results (two_registered (delivered (Interface (Some (DynRows 7)))) abandoned pending) !! p.
Proof.
  eexists _, _, _. split; [vm_compute; reflexivity|].
  eapply (DrainAll_touches_only_registered (in_order 0) conn0
            (two_registered (delivered (Interface (Some (DynRows 7)))) abandoned pending)).
  vm_compute. reflexivity.
Defined.

Lemma drain_loop_only_queries vc1 vc2 fuel :
  queries vc1 = queries vc2 →
  ∀ pick handles cases fin log σ,
    drain_loop fuel vc1 pick handles cases fin log σ
    = drain_loop fuel vc2 pick handles cases fin log σ.
Proof.
  intros Hq. induction fuel as [|fuel IH]; intros pick handles cases fin log σ;
    destruct handles as [|h0 hs]; simpl; try done.
  destruct (reflect_Select cases (pick 0) σ) as [[[chosen v] ok] σ1| | |]; simpl; try done.
  destruct ((h0 :: hs) !! chosen) as [handle|]; [|done].
  destruct (last (h0 :: hs)); [|done]. destruct (last cases); [|done].
  unfold queries_at. rewrite Hq.
  destruct (queryMaps σ1 !! queries vc2 ≫= _) as [chosenQuery|]; [|done].
  destruct (call_queries chosenQuery (finalize_calls v ok) σ1) as [[] σ2| | |];
    simpl; try done.
Qed.

(** X15.  [DrainAll] looks at nothing of the connection but its query map:
    two structs with the same map drain alike.  In particular it does not
    look at [isOpen], and runs on a closed connection as on an open one. *)
Theorem DrainAll_only_queries sch vc1 vc2 σ :
  queries vc1 = queries vc2 →
  DrainAll sch vc1 σ = DrainAll sch vc2 σ.
Proof.
  intros Hq. unfold DrainAll. rewrite Hq.
  destruct (snapshot _ σ) as [hc σ0| | |]; simpl; try done.
  by apply drain_loop_only_queries.
Qed.

Lemma DrainAll_only_queries_witness :
  DrainAll (in_order 0) closed0
    (three_queries (delivered (Interface (Some (DynRows 7))))
                   (delivered (Interface (Some (DynRows 8)))) abandoned)
  = DrainAll (in_order 0) conn0
      (three_queries (delivered (Interface (Some (DynRows 7))))
                     (delivered (Interface (Some (DynRows 8)))) abandoned).
Proof.
  apply (DrainAll_only_queries (in_order 0) closed0 conn0). reflexivity.
Defined.

(** X16.  When the value delivered on a registered query's channel is a
    [driver.Rows] (the registry holding at most 65536 queries, which all
    complete on channels of their own), [DrainAll] stores those rows on the
    query and does not touch its error. *)
Theorem DrainAll_rows_delivered sch vc σ m h p q r :
  registry vc σ m →
  (Z.of_nat (size m) ≤ max_select_cases)%Z →
  completes σ m →
  own_channels σ m →
  m !! h = Some p →
  results σ !! p = Some q →
  peek (vqr_channel q) σ = Some (Interface (Some (DynRows r)), true) →
  ∃ out evs σ',
    DrainAll sch vc σ = Returned (out, evs) σ' ∧
    p ∈ out ∧
    results σ' !! p
    = Some {| vqr_channel := vqr_channel q; vqr_rows := Some r; vqr_err := vqr_err q |}.
Proof.
  intros Hreg Hmax Hcomp Hown Hp Hq Hr.
  destruct (DrainAll_spec sch vc σ m Hreg Hmax Hcomp Hown)
    as (hps & evs & σ' & Hrun & Hperm & _ & Hfin & _).
  exists hps.*2, evs, σ'. split_and!; [done| |].
  - apply (list_elem_of_fmap_2 snd hps (h, p)). rewrite Hperm.
    by apply elem_of_map_to_list.
  - by rewrite (Hfin h p q _ Hp Hq Hr).
Qed.

Lemma DrainAll_rows_delivered_witness :
  ∃ out evs σ',
    DrainAll (in_order 1) conn0
      (three_queries (delivered (Interface (Some (DynRows 7))))
                     (delivered (Interface (Some (DynRows 8)))) abandoned)
    = Returned (out, evs) σ' ∧
    1 ∈ out ∧
    results σ' !! 1
    = Some {| vqr_channel := vqr_channel (mk_query 11); vqr_rows := Some 8;
              vqr_err := vqr_err (mk_query 11) |}.
Proof.
  apply (DrainAll_rows_delivered (in_order 1) conn0
           (three_queries (delivered (Interface (Some (DynRows 7))))
                          (delivered (Interface (Some (DynRows 8)))) abandoned)
           three_handles 101%Z 1 (mk_query 11) 8).
  - reflexivity.
  - apply (bool_decide_unpack _). vm_compute. exact I.
  - apply (bool_decide_unpack _). vm_compute. exact I.
  - apply (bool_decide_unpack _). vm_compute. exact I.
  - reflexivity.
  - reflexivity.
  - reflexivity.
Defined.

Lemma completes_ext σ σ1 (m : gmap Z nat) :
  results σ1 = results σ → channels σ1 = channels σ →
  completes σ m → completes σ1 m.
Proof.
  intros Hr Hc. unfold completes, channel_of. rewrite Hr.
  intros Hall h p Hhp. specialize (Hall h p Hhp). simpl in *.
  destruct (results σ !! p) as [q|]; simpl in *; [|done].
  rewrite (peek_ext _ σ1 σ); [done|by rewrite Hc].
Qed.

Lemma own_channels_ext σ σ1 (m : gmap Z nat) :
  results σ1 = results σ → own_channels σ m → own_channels σ1 m.
Proof. intros Hr. unfold own_channels, channel_of. by rewrite Hr. Qed.



(** X18.  A query registered under a new handle is drained with the rest:
    when fewer than 65536 queries were registered, it is live, on a channel no registered query uses, and its
    completion and those of the registered queries arrive, [DrainAll]
    after [registerQuery] returns one entry more than were registered, the
    new query among them, finalized from what its channel delivered. *)
Theorem registerQuery_then_DrainAll sch vc σ m h p q r :
  registry vc σ m →
  (Z.of_nat (size m) < max_select_cases)%Z →
  completes σ m →
  own_channels σ m →
  m !! h = None →
  results σ !! p = Some q →
  peek (vqr_channel q) σ = Some r →
  channel_of σ p ∉ (λ hp : Z * nat, channel_of σ hp.2) <$> map_to_list m →
  ∃ σ1 hps evs σ',
    registerQuery vc h p σ = Returned () σ1 ∧
    DrainAll sch vc σ1 = Returned (hps.*2, evs) σ' ∧
    length (hps.*2) = S (size m) ∧
    (h, p) ∈ hps ∧
    results σ' !! p = Some (finalized q r).
Proof.
  intros Hreg Hmax Hcomp Hown Hfresh Hq Hr Hchan.
  unfold registerQuery. unfold registry in Hreg. rewrite Hreg.
  set (σ1 := set_queryMaps _ σ).
  assert (registry vc σ1 (<[h := p]> m)) as Hreg1.
  { unfold registry, σ1. simpl. apply lookup_insert_eq. }
  assert (completes σ1 (<[h := p]> m)) as Hcomp1.
  { apply (completes_ext σ); [done..|].
    apply map_Forall_insert_2; [|done].
    unfold channel_of. rewrite Hq. simpl. rewrite Hr. eauto. }
  assert (own_channels σ1 (<[h := p]> m)) as Hown1.
  { apply (own_channels_ext σ); [done|]. unfold own_channels in *.
    rewrite map_to_list_insert by done. rewrite fmap_cons. by apply NoDup_cons. }
  assert (Z.of_nat (size (<[h := p]> m)) ≤ max_select_cases)%Z as Hmax1.
  { rewrite map_size_insert_None by done. lia. }
  destruct (DrainAll_spec sch vc σ1 _ Hreg1 Hmax1 Hcomp1 Hown1)
    as (hps & evs & σ' & Hrun & Hperm & _ & Hfin & _).
  exists σ1, hps, evs, σ'. split_and!; try done.
  - rewrite length_fmap, Hperm, length_map_to_list. by apply map_size_insert_None.
  - rewrite Hperm. apply elem_of_map_to_list. apply lookup_insert_eq.
  - apply (Hfin h p q r); [apply lookup_insert_eq|done|].
    rewrite <-Hr. by apply peek_ext.
Qed.

Lemma registerQuery_then_DrainAll_witness :
  ∃ σ1 hps evs σ',
    registerQuery conn0 102 2
      (two_registered (delivered (Interface (Some (DynRows 7)))) abandoned
                      (delivered (Interface (Some (DynRows 9)))))
    = Returned () σ1 ∧
    DrainAll (in_order 0) conn0 σ1 = Returned (hps.*2, evs) σ' ∧
    length (hps.*2) = S (size two_handles) ∧
    (102%Z, 2) ∈ hps ∧
    results σ' !! 2
    = Some (finalized (mk_query 12) (Interface (Some (DynRows 9)), true)).
Proof.
  apply (registerQuery_then_DrainAll (in_order 0) conn0
           (two_registered (delivered (Interface (Some (DynRows 7)))) abandoned
                           (delivered (Interface (Some (DynRows 9)))))
           two_handles 102%Z 2 (mk_query 12) (Interface (Some (DynRows 9)), true)).
  - reflexivity.
  - apply (bool_decide_unpack _). vm_compute. exact I.
  - apply (bool_decide_unpack _). vm_compute. exact I.
  - apply (bool_decide_unpack _). vm_compute. exact I.
  - reflexivity.
  - reflexivity.
  - reflexivity.
  - apply (bool_decide_unpack _). vm_compute. exact I.
Defined.

Lemma awaits_not_ready σ c : awaits σ c → chan_recv c σ = None.
Proof. intros (st & Hst & Hbuf & Hcl). unfold chan_recv. by rewrite Hst, Hbuf, Hcl. Qed.

Lemma drain_loop_awaits vc fuel : ∀ pick handles cases fin log σ c,
  length handles = length cases →
  c ∈ cases →
  awaits σ c →
  ∀ out σ', drain_loop fuel vc pick handles cases fin log σ ≠ Returned out σ'.
Proof.
  induction fuel as [|fuel IH]; intros pick handles cases fin log σ c Hlen Hin Hwait out σ';
    (destruct handles as [|h0 hs] eqn:Hhs;
     [destruct cases; [by apply elem_of_nil in Hin|done]|]); simpl; [done|].
  rewrite <-Hhs in *.
  destruct (reflect_Select cases (pick 0) σ) as [[[chosen v] ok] σ1| | |] eqn:Hsel;
    simpl; try done.
  apply reflect_Select_inv in Hsel as (c' & Hc' & Hrecv).
  assert (c' ≠ c) as Hne.
  { intros ->. by rewrite (awaits_not_ready σ c Hwait) in Hrecv. }
  apply chan_recv_inv in Hrecv as (_ & _ & Hch1).
  destruct (handles !! chosen) as [handle|]; [|done].
  destruct (last handles) as [lastHandle|]; [|done].
  destruct (swap_remove_perm cases chosen c' Hc') as (x & Hlast & Hperm).
  rewrite Hlast.
  destruct (queries_at vc handle σ1) as [chosenQuery|]; [|done].
  destruct (call_queries chosenQuery (finalize_calls v ok) σ1) as [[] σ2| | |] eqn:Hcalls;
    simpl; try done.
  apply call_queries_inv in Hcalls as (_ & Hch2 & _).
  apply (IH _ _ _ _ _ _ c).
  - rewrite !length_take, !length_insert, <-Hlen. subst handles. simpl. lia.
  - rewrite <-Hperm in Hin. apply elem_of_cons in Hin as [Heq|Hin]; [|done]. by destruct Hne.
  - destruct Hwait as (st & Hst & Hbuf & Hcl). exists st. split_and!; [|done..].
    rewrite Hch2, Hch1; done.
Qed.

Lemma snapshot_inv entries σ hc σ0 :
  snapshot entries σ = Returned hc σ0 →
  σ0 = σ ∧ ∀ h p q, (h, p) ∈ entries → results σ !! p = Some q → vqr_channel q ∈ hc.2.
Proof.
  revert hc σ0. induction entries as [|[h0 p0] rest IH]; intros hc σ0; simpl.
  - intros [= <- <-]. split; [done|]. by intros h p q ?%elem_of_nil.
  - destruct (results σ !! p0) as [q0|] eqn:Hq0; [|done].
    destruct (snapshot rest σ) as [hc0 σ1| | |]; simpl; try done.
    destruct (IH hc0 σ1 eq_refl) as [-> Hrest].
    intros [= <- <-]. split; [done|]. simpl.
    intros h p q [Heq|Hin]%elem_of_cons Hq.
    + injection Heq as -> ->. rewrite Hq0 in Hq. injection Hq as ->. apply list_elem_of_here.
    + apply list_elem_of_further. by eapply Hrest.
Qed.

(** X19.  [DrainAll] has no way out while a registered query is still
    waiting: if the channel of some registered query is open and empty,
    [DrainAll] does not return, whatever arrives on the other channels and
    in whatever order. *)
Theorem DrainAll_waits_for_pending sch vc σ h p q :
  queries_at vc h σ = Some p →
  results σ !! p = Some q →
  awaits σ (vqr_channel q) →
  has_returned (DrainAll sch vc σ) = false.
Proof.
  intros Hat Hq Hwait.
  destruct (DrainAll sch vc σ) as [out σ'| | |] eqn:Hrun; try done.
  exfalso. revert Hrun.
  unfold queries_at, DrainAll in *.
  destruct (queryMaps σ !! queries vc) as [m|]; [|done]. simpl in *.
  destruct (snapshot (range_order sch m) σ) as [hc σ0| | |] eqn:Hsnap; simpl; try done.
  apply snapshot_length in Hsnap as Hlens. destruct Hlens as [Hl1 Hl2].
  apply snapshot_inv in Hsnap as [-> Hin].
  apply (drain_loop_awaits _ _ _ _ _ _ _ _ (vqr_channel q)); [congruence| |done].
  apply (Hin h p q); [|done]. rewrite range_order_perm. by apply elem_of_map_to_list.
Qed.

Lemma DrainAll_waits_for_pending_witness :
  has_returned
    (DrainAll (in_order 0) conn0
       (three_queries (delivered (Interface (Some (DynRows 7)))) pending abandoned))
  = false.
Proof.
  apply (DrainAll_waits_for_pending (in_order 0) conn0
           (three_queries (delivered (Interface (Some (DynRows 7)))) pending abandoned)
           101%Z 1 (mk_query 11)).
  - reflexivity.
  - reflexivity.
  - exists pending. split_and!; reflexivity.
Defined.

Lemma drain_loop_channels vc fuel : ∀ pick handles cases fin log σ out σ' c,
  drain_loop fuel vc pick handles cases fin log σ = Returned out σ' →
  c ∉ cases →
  channels σ' !! c = channels σ !! c.
Proof.
  induction fuel as [|fuel IH]; intros pick handles cases fin log σ out σ' c;
    destruct handles as [|h0 hs] eqn:Hhs; simpl; try done.
  1,2: by intros [= _ <-].
  rewrite <-Hhs.
  destruct (reflect_Select cases (pick 0) σ) as [[[chosen v] ok] σ1| | |] eqn:Hsel;
    simpl; try done.
  apply reflect_Select_inv in Hsel as (c' & Hc' & Hrecv).
  apply chan_recv_inv in Hrecv as (_ & _ & Hch1).
  destruct (handles !! chosen) as [handle|]; [|done].
  destruct (last handles) as [lastHandle|]; [|done].
  destruct (swap_remove_perm cases chosen c' Hc') as (x & Hlast & Hperm).
  rewrite Hlast.
  destruct (queries_at vc handle σ1) as [chosenQuery|]; [|done].
  destruct (call_queries chosenQuery (finalize_calls v ok) σ1) as [[] σ2| | |] eqn:Hcalls;
    simpl; try done.
  apply call_queries_inv in Hcalls as (_ & Hch2 & _).
  intros Hloop Hnotin. rewrite <-Hperm in Hnotin.
  apply not_elem_of_cons in Hnotin as [Hne Hnotin].
  rewrite (IH _ _ _ _ _ _ _ _ c Hloop Hnotin), Hch2. by apply Hch1.
Qed.

Lemma snapshot_channels entries σ hc σ0 c :
  snapshot entries σ = Returned hc σ0 →
  c ∈ hc.2 →
  ∃ h p q, (h, p) ∈ entries ∧ results σ !! p = Some q ∧ vqr_channel q = c.
Proof.
  revert hc σ0. induction entries as [|[h0 p0] rest IH]; intros hc σ0; simpl.
  - intros [= <- <-]. by intros ?%elem_of_nil.
  - destruct (results σ !! p0) as [q0|] eqn:Hq0; [|done].
    destruct (snapshot rest σ) as [hc0 σ1| | |]; simpl; try done.
    intros [= <- <-]. simpl. intros [->|Hin]%elem_of_cons.
    + exists h0, p0, q0. split_and!; [apply list_elem_of_here|done..].
    + destruct (IH hc0 σ1 eq_refl Hin) as (h & p & q & Hin' & Hq & Hc).
      exists h, p, q. split_and!; [by apply list_elem_of_further|done..].
Qed.

(** X20.  [DrainAll] receives only from the channels of registered
    queries: whenever it returns, every other channel, the channels
    registered with [registerExec] among them, holds what it held. *)
Theorem DrainAll_other_channels sch vc σ out σ' c :
  DrainAll sch vc σ = Returned out σ' →
  Some c ∉ query_channels vc σ →
  channels σ' !! c = channels σ !! c.
Proof.
  unfold DrainAll, query_channels. intros Hrun Hnot.
  destruct (snapshot _ σ) as [hc σ0| | |] eqn:Hsnap; simpl in Hrun; try done.
  apply snapshot_inv in Hsnap as Hsame. destruct Hsame as [-> _].
  apply (drain_loop_channels _ _ _ _ _ _ _ _ _ _ c) in Hrun; [done|].
  intros Hin. destruct (snapshot_channels _ _ _ _ _ Hsnap Hin) as (h & p & q & Hhp & Hq & Hc).
  apply Hnot. rewrite range_order_perm in Hhp.
  apply (list_elem_of_fmap_2' _ _ (h, p)); [done|].
  unfold channel_of. simpl. by rewrite Hq, <-Hc.
Qed.

Lemma DrainAll_other_channels_witness :
  ∃ out σ',
    DrainAll (in_order 0) conn0
      (two_registered (delivered (Interface (Some (DynRows 7)))) abandoned
                      (delivered (Interface (Some (DynRows 9)))))
    = Returned out σ' ∧
    channels σ' !! 12
    = channels (two_registered (delivered (Interface (Some (DynRows 7)))) abandoned
                               (delivered (Interface (Some (DynRows 9))))) !! 12.
Proof.
  eexists _, _. split; [vm_compute; reflexivity|].
  eapply (DrainAll_other_channels (in_order 0) conn0
            (two_registered (delivered (Interface (Some (DynRows 7)))) abandoned
                            (delivered (Interface (Some (DynRows 9)))))).
  - vm_compute. reflexivity.
  - apply (bool_decide_unpack _). vm_compute. exact I.
Defined.

(** X21.  A connection returned by [OpenConn], after a resolve, a dial, a
    serialization and a read from the dialled connection that all
    succeeded, takes [Prepare]: called
    through the returned pointer it gives a statement and a nil error, the
    statement is bound to the dialled TCP connection as its writer and to
    the started listener, and the store is as [OpenConn] left it. *)
Theorem OpenConn_then_Prepare env connInfo query σ raddr login cd :
  net_ResolveTCPAddr env connInfo = inr raddr →
  net_DialTCP env raddr = None →
  serializeLoginMessage env "" "" = inr login →
  readLoginResponse env (dialled σ) = inr cd →
  ∃ p c vs σ',
    OpenConn env connInfo σ = Returned (Some p, None) σ' ∧
    through_pointer p (λ vc, Prepare vc query) σ' = Returned (Some vs, None) σ' ∧
    stmt_query vs = query ∧
    stmt_writer vs = Some (TCPConn c) ∧
    stmt_listener vs = Some {| nl_reader := Some (TCPConn c); nl_started := true |} ∧
    tcpConns σ' !! c = Some {| tcp_closed := false; tcp_close_calls := 0 |}.
Proof.
  intros Hres Hdial Hser Hread.
  destruct (OpenConn_opens env connInfo σ raddr login cd Hres Hdial Hser Hread)
    as (p & vc & c & σ' & Hopen & _ & Hp & Hisopen & _ & Hw & _ & Htcp & Hnl & _).
  exists p, c, (newVoltStatement vc (writer vc) (netListener vc) query), σ'.
  unfold through_pointer, Prepare. rewrite Hp, Hisopen. simpl.
  by rewrite Hw, Hnl.
Qed.

Lemma OpenConn_then_Prepare_witness :
  ∃ p c vs σ',
    OpenConn (server None (inr login_reply)) "localhost:21212" empty_store
    = Returned (Some p, None) σ' ∧
    through_pointer p (λ vc, Prepare vc "select 1") σ' = Returned (Some vs, None) σ' ∧
    stmt_query vs = "select 1" ∧
    stmt_writer vs = Some (TCPConn c) ∧
    stmt_listener vs = Some {| nl_reader := Some (TCPConn c); nl_started := true |} ∧
    tcpConns σ' !! c = Some {| tcp_closed := false; tcp_close_calls := 0 |}.
Proof.
  apply (OpenConn_then_Prepare (server None (inr login_reply)) "localhost:21212" "select 1"
           empty_store 0 "login" login_reply); reflexivity.
Defined.

End voltdbclient.
